(** * An ordered set as a red-black tree with parent pointers (set.go)

    The Go package stores the elements of a set in heap-allocated nodes that
    point at each other ([left], [right], [parent]).  The development below
    embeds it shallowly: the heap is a finite map from addresses to node
    records, a [*node] is an optional address ([None] is [nil]), and every
    method is a computation in a state-and-panic monad over the heap
    together with the fields of the [Set] struct. *)

From stdpp Require Import gmap list sorting.
From Stdlib Require Import ZArith Lia.

Local Open Scope Z_scope.

(** ** The element type

    Go's constraint [Ordered] only gives the methods the operators [<] and
    [>]; the specification asks the callers for a strict total order, which
    the laws below record (they leave out a floating-point NaN, on which
    neither operator answers [true]).  The field [zero] is the zero value of
    the type ([var zero T]). *)

Class Ordered (T : Type) := {
  less : T → T → bool;
  zero : T;
  less_irrefl : ∀ x, less x x = false;
  less_trans : ∀ x y z, less x y = true → less y z = true → less x z = true;
  less_total : ∀ x y, less x y = false → less y x = false → x = y
}.

Declare Scope go_scope.
Delimit Scope go_scope with go.
Notation "x <? y" := (less x y) : go_scope.
Notation "x >? y" := (less y x) : go_scope.

(** The instance the examples run on: Go's [int], of which the methods
    only use the comparisons. *)
Definition Z_Ordered : Ordered Z.
Proof.
  refine {| less := Z.ltb; zero := 0 |}.
  - intros x. apply Z.ltb_irrefl.
  - intros x y z. rewrite !Z.ltb_lt. lia.
  - intros x y. rewrite !Z.ltb_ge. lia.
Defined.

(** ** Nodes, pointers and the state *)

(** [type color bool] with the constants [red] and [black]. *)
Inductive colorT : Set := red | black.

#[export] Instance colorT_eq_dec : EqDecision colorT.
Proof. solve_decision. Defined.

Definition addr := nat.

(** A [*node[T]]: [None] is [nil]. *)
Definition ptr := option addr.

Section Store.
Context {T : Type}.

Record node := mkNode {
  value : T;
  color : colorT;
  left : ptr;
  right : ptr;
  parent : ptr
}.

(** The struct [Set] (fields [root] and [size]) together with the heap its
    nodes live in.  [size] is a Go [int]; it counts allocated nodes, which a
    64-bit address space cannot hold [2^63] of, so it is kept as an integer
    without a wrap-around. *)
Record set := mkSet {
  heap : gmap addr node;
  root : ptr;
  size : Z
}.

Definition with_heap (h : gmap addr node) (s : set) : set :=
  {| heap := h; root := root s; size := size s |}.
Definition with_root (r : ptr) (s : set) : set :=
  {| heap := heap s; root := r; size := size s |}.
Definition with_size (n : Z) (s : set) : set :=
  {| heap := heap s; root := root s; size := n |}.

Definition with_color (c : colorT) (n : node) : node :=
  {| value := value n; color := c; left := left n; right := right n;
     parent := parent n |}.
Definition with_left (p : ptr) (n : node) : node :=
  {| value := value n; color := color n; left := p; right := right n;
     parent := parent n |}.
Definition with_right (p : ptr) (n : node) : node :=
  {| value := value n; color := color n; left := left n; right := p;
     parent := parent n |}.
Definition with_parent (p : ptr) (n : node) : node :=
  {| value := value n; color := color n; left := left n; right := right n;
     parent := p |}.

(** ** The monad

    A method either returns ([Ok]), panics on a nil-pointer dereference
    ([Panic], with the state the panic leaves behind, which a deferred
    [recover] can observe), or exhausts the fuel of one of its loops
    ([OutOfFuel]). *)

Inductive result (A : Type) : Type :=
  | Ok (a : A) (s : set)
  | Panic (s : set)
  | OutOfFuel.
Global Arguments Ok {A} a s.
Global Arguments Panic {A} s.
Global Arguments OutOfFuel {A}.

Definition M (A : Type) : Type := set → result A.

Definition ret {A} (a : A) : M A := λ s, Ok a s.
Definition bind {A B} (m : M A) (k : A → M B) : M B :=
  λ s, match m s with
       | Ok a s' => k a s'
       | Panic s' => Panic s'
       | OutOfFuel => OutOfFuel
       end.
Definition panic {A} : M A := λ s, Panic s.
Definition out_of_fuel {A} : M A := λ _, OutOfFuel.

(** Dereferencing: [p.f] panics when [p] is nil. *)
Definition load (p : ptr) : M node :=
  λ s, match p with
       | None => Panic s
       | Some a => match heap s !! a with
                   | Some n => Ok n s
                   | None => Panic s
                   end
       end.

Definition getf {A} (f : node → A) (p : ptr) : M A :=
  bind (load p) (λ n, ret (f n)).

Definition setf (f : node → node) (p : ptr) : M unit :=
  λ s, match p with
       | None => Panic s
       | Some a => match heap s !! a with
                   | Some n => Ok tt (with_heap (<[a := f n]> (heap s)) s)
                   | None => Panic s
                   end
       end.

Definition set_color (p : ptr) (c : colorT) : M unit := setf (with_color c) p.
Definition set_left (p q : ptr) : M unit := setf (with_left q) p.
Definition set_right (p q : ptr) : M unit := setf (with_right q) p.
Definition set_parent (p q : ptr) : M unit := setf (with_parent q) p.

(** [p.f1.f2...]: a chain of dereferences. *)
Fixpoint path (p : ptr) (fs : list (node → ptr)) : M ptr :=
  match fs with
  | [] => ret p
  | f :: fs => bind (getf f p) (λ q, path q fs)
  end.

Definition get_root : M ptr := λ s, Ok (root s) s.
Definition set_root (r : ptr) : M unit := λ s, Ok tt (with_root r s).
Definition get_size : M Z := λ s, Ok (size s) s.
Definition set_size (n : Z) : M unit := λ s, Ok tt (with_size n s).

(** [&node[T]{...}]: a fresh address. *)
Definition alloc (n : node) : M ptr :=
  λ s, let a := fresh (dom (heap s)) in
       Ok (Some a) (with_heap (<[a := n]> (heap s)) s).

Definition ptr_eqb (p q : ptr) : bool := bool_decide (p = q).

(** The fuel the loops of a method get: more than the number of nodes that
    were ever allocated (and twice that for the traversal). *)
Definition fuel_of (s : set) : nat := S (base.size (heap s)).
Definition get_fuel : M nat := λ s, Ok (fuel_of s) s.

(** [New] *)
Definition New : set := {| heap := ∅; root := None; size := 0 |}.

End Store.

Global Arguments node : clear implicits.
Global Arguments set : clear implicits.
Global Arguments result : clear implicits.
Global Arguments M : clear implicits.
Global Arguments with_heap {T} h s /.
Global Arguments with_root {T} r s /.
Global Arguments with_size {T} n s /.
Global Arguments with_color {T} c n /.
Global Arguments with_left {T} p n /.
Global Arguments with_right {T} p n /.
Global Arguments with_parent {T} p n /.

Notation "x ← m ; k" := (bind m (λ x, k))
  (at level 20, m at level 100, k at level 200, only parsing) : go_scope.
Notation "m ;; k" := (bind m (λ _, k))
  (at level 100, k at level 200, right associativity, only parsing) : go_scope.
Local Open Scope go_scope.

(** ** The methods *)

Section Methods.
Context {T : Type} `{Ordered T}.

(** [Len] *)
Definition Len : M T Z := get_size.

(** [Contains]: the loop [for n != nil]. *)
Fixpoint Contains_loop (fuel : nat) (x : T) (n : ptr) : M T bool :=
  match fuel with
  | O => out_of_fuel
  | S fuel =>
    match n with
    | None => ret false
    | Some _ =>
      v ← getf value n;
      if x <? v then nl ← getf left n; Contains_loop fuel x nl
      else if x >? v then nr ← getf right n; Contains_loop fuel x nr
      else ret true
    end
  end.

Definition Contains (x : T) : M T bool :=
  fuel ← get_fuel;
  n ← get_root;
  Contains_loop fuel x n.

(** [leftRotate] and [rightRotate] *)
Definition leftRotate (x : ptr) : M T unit :=
  y ← getf right x;
  yl ← getf left y;
  set_right x yl;;
  yl ← getf left y;
  (match yl with
   | Some _ => set_parent yl x
   | None => ret tt
   end);;
  xp ← getf parent x;
  set_parent y xp;;
  xp ← getf parent x;
  (match xp with
   | None => set_root y
   | Some _ =>
     xpl ← getf left xp;
     if ptr_eqb x xpl then set_left xp y else set_right xp y
   end);;
  set_left y x;;
  set_parent x y.

Definition rightRotate (x : ptr) : M T unit :=
  y ← getf left x;
  yr ← getf right y;
  set_left x yr;;
  yr ← getf right y;
  (match yr with
   | Some _ => set_parent yr x
   | None => ret tt
   end);;
  xp ← getf parent x;
  set_parent y xp;;
  xp ← getf parent x;
  (match xp with
   | None => set_root y
   | Some _ =>
     xpr ← getf right xp;
     if ptr_eqb x xpr then set_right xp y else set_left xp y
   end);;
  set_right y x;;
  set_parent x y.

(** [insertFixup]: the loop [for z.parent != nil && z.parent.color == red]. *)
Fixpoint insertFixup_loop (fuel : nat) (z : ptr) : M T unit :=
  match fuel with
  | O => out_of_fuel
  | S fuel =>
    zp ← getf parent z;
    match zp with
    | None => ret tt
    | Some _ =>
      zpc ← getf color zp;
      match zpc with
      | black => ret tt
      | red =>
        zp ← getf parent z;
        zppl ← path z [parent; parent; left];
        if ptr_eqb zp zppl then
          y ← path z [parent; parent; right];
          yred ← (match y with
                  | None => ret false
                  | Some _ => yc ← getf color y; ret (bool_decide (yc = red))
                  end);
          if yred then
            zp ← getf parent z; set_color zp black;;
            set_color y black;;
            zpp ← path z [parent; parent]; set_color zpp red;;
            z ← path z [parent; parent];
            insertFixup_loop fuel z
          else
            zpr ← path z [parent; right];
            z ← (if ptr_eqb z zpr then
                   z ← getf parent z;
                   leftRotate z;;
                   ret z
                 else ret z);
            zp ← getf parent z; set_color zp black;;
            zpp ← path z [parent; parent]; set_color zpp red;;
            zpp ← path z [parent; parent]; rightRotate zpp;;
            insertFixup_loop fuel z
        else
          y ← path z [parent; parent; left];
          yred ← (match y with
                  | None => ret false
                  | Some _ => yc ← getf color y; ret (bool_decide (yc = red))
                  end);
          if yred then
            zp ← getf parent z; set_color zp black;;
            set_color y black;;
            zpp ← path z [parent; parent]; set_color zpp red;;
            z ← path z [parent; parent];
            insertFixup_loop fuel z
          else
            zpl ← path z [parent; left];
            z ← (if ptr_eqb z zpl then
                   z ← getf parent z;
                   rightRotate z;;
                   ret z
                 else ret z);
            zp ← getf parent z; set_color zp black;;
            zpp ← path z [parent; parent]; set_color zpp red;;
            zpp ← path z [parent; parent]; leftRotate zpp;;
            insertFixup_loop fuel z
      end
    end
  end.

Definition insertFixup (z : ptr) : M T unit :=
  fuel ← get_fuel;
  insertFixup_loop fuel z;;
  r ← get_root; set_color r black.

(** [Insert]: the descent [for n != nil] gives [None] when it met [x] (the
    method returns at once) and the last node it visited otherwise. *)
Fixpoint Insert_loop (fuel : nat) (x : T) (parent n : ptr) : M T (option ptr) :=
  match fuel with
  | O => out_of_fuel
  | S fuel =>
    match n with
    | None => ret (Some parent)
    | Some _ =>
      v ← getf value n;
      if x <? v then nl ← getf left n; Insert_loop fuel x n nl
      else if x >? v then nr ← getf right n; Insert_loop fuel x n nr
      else ret None
    end
  end.

Definition Insert (x : T) : M T unit :=
  fuel ← get_fuel;
  n ← get_root;
  found ← Insert_loop fuel x None n;
  match found with
  | None => ret tt
  | Some parent =>
    newNode ← alloc {| value := x; color := red; left := None;
                       right := None; parent := parent |};
    (match parent with
     | None => set_root newNode
     | Some _ =>
       pv ← getf value parent;
       if x <? pv then set_left parent newNode
       else set_right parent newNode
     end);;
    insertFixup newNode;;
    n ← get_size; set_size (n + 1)
  end.

(** [minNode] and [maxNode] *)
Fixpoint minNode (fuel : nat) (n : ptr) : M T ptr :=
  match fuel with
  | O => out_of_fuel
  | S fuel =>
    nl ← getf left n;
    match nl with
    | Some _ => minNode fuel nl
    | None => ret n
    end
  end.

Fixpoint maxNode (fuel : nat) (n : ptr) : M T ptr :=
  match fuel with
  | O => out_of_fuel
  | S fuel =>
    nr ← getf right n;
    match nr with
    | Some _ => maxNode fuel nr
    | None => ret n
    end
  end.

(** [rbTransplant] *)
Definition rbTransplant (u v : ptr) : M T unit :=
  up ← getf parent u;
  (match up with
   | None => set_root v
   | Some _ =>
     upl ← getf left up;
     if ptr_eqb u upl then set_left up v else set_right up v
   end);;
  match v with
  | Some _ => up ← getf parent u; set_parent v up
  | None => ret tt
  end.

(** [deleteFixup]: the loop [for x != s.root && x.color == black]; the two
    branches are mirror images of each other. *)
Definition is_black_or_nil (p : ptr) : M T bool :=
  match p with
  | None => ret true
  | Some _ => c ← getf color p; ret (bool_decide (c = black))
  end.

Fixpoint deleteFixup_loop (fuel : nat) (x : ptr) : M T ptr :=
  match fuel with
  | O => out_of_fuel
  | S fuel =>
    r ← get_root;
    if ptr_eqb x r then ret x else
    xc ← getf color x;
    match xc with
    | red => ret x
    | black =>
      xpl ← path x [parent; left];
      if ptr_eqb x xpl then
        w ← path x [parent; right];
        wc ← getf color w;
        w ← (match wc with
             | red =>
               set_color w black;;
               xp ← getf parent x; set_color xp red;;
               xp ← getf parent x; leftRotate xp;;
               path x [parent; right]
             | black => ret w
             end);
        wl ← getf left w;
        wlb ← is_black_or_nil wl;
        both ← (if wlb then wr ← getf right w; is_black_or_nil wr
                else ret false);
        if both then
          set_color w red;;
          x ← getf parent x;
          deleteFixup_loop fuel x
        else
          wr ← getf right w;
          wrb ← is_black_or_nil wr;
          w ← (if wrb then
                 wl ← getf left w;
                 (match wl with
                  | Some _ => set_color wl black
                  | None => ret tt
                  end);;
                 set_color w red;;
                 rightRotate w;;
                 path x [parent; right]
               else ret w);
          xp ← getf parent x; xpc ← getf color xp; set_color w xpc;;
          xp ← getf parent x; set_color xp black;;
          wr ← getf right w;
          (match wr with
           | Some _ => set_color wr black
           | None => ret tt
           end);;
          xp ← getf parent x; leftRotate xp;;
          x ← get_root;
          deleteFixup_loop fuel x
      else
        w ← path x [parent; left];
        wc ← getf color w;
        w ← (match wc with
             | red =>
               set_color w black;;
               xp ← getf parent x; set_color xp red;;
               xp ← getf parent x; rightRotate xp;;
               path x [parent; left]
             | black => ret w
             end);
        wr ← getf right w;
        wrb ← is_black_or_nil wr;
        both ← (if wrb then wl ← getf left w; is_black_or_nil wl
                else ret false);
        if both then
          set_color w red;;
          x ← getf parent x;
          deleteFixup_loop fuel x
        else
          wl ← getf left w;
          wlb ← is_black_or_nil wl;
          w ← (if wlb then
                 wr ← getf right w;
                 (match wr with
                  | Some _ => set_color wr black
                  | None => ret tt
                  end);;
                 set_color w red;;
                 leftRotate w;;
                 path x [parent; left]
               else ret w);
          xp ← getf parent x; xpc ← getf color xp; set_color w xpc;;
          xp ← getf parent x; set_color xp black;;
          wl ← getf left w;
          (match wl with
           | Some _ => set_color wl black
           | None => ret tt
           end);;
          xp ← getf parent x; rightRotate xp;;
          x ← get_root;
          deleteFixup_loop fuel x
    end
  end.

Definition deleteFixup (x : ptr) : M T unit :=
  fuel ← get_fuel;
  x ← deleteFixup_loop fuel x;
  set_color x black.

(** [deleteNode] *)
Definition deleteNode (z : ptr) : M T unit :=
  (zc ← getf color z;
   zl ← getf left z;
   xc ← (match zl with
         | None =>
           x ← getf right z;
           zr ← getf right z; rbTransplant z zr;;
           ret (x, zc)
         | Some _ =>
           zr ← getf right z;
           match zr with
           | None =>
             x ← getf left z;
             zl ← getf left z; rbTransplant z zl;;
             ret (x, zc)
           | Some _ =>
             zr ← getf right z;
             fuel ← get_fuel;
             y ← minNode fuel zr;
             originalColor ← getf color y;
             x ← getf right y;
             yp ← getf parent y;
             (if ptr_eqb yp z then
                match x with
                | Some _ => set_parent x y
                | None => ret tt
                end
              else
                yr ← getf right y; rbTransplant y yr;;
                zr ← getf right z; set_right y zr;;
                yr ← getf right y; set_parent yr y);;
             rbTransplant z y;;
             zl ← getf left z; set_left y zl;;
             yl ← getf left y; set_parent yl y;;
             zc ← getf color z; set_color y zc;;
             ret (x, originalColor)
           end
         end);
   n ← get_size; set_size (n - 1);;
   match xc with
   | (Some x, black) => deleteFixup (Some x)
   | _ => ret tt
   end).

(** [Remove]: the loop [for z != nil]. *)
Fixpoint Remove_loop (fuel : nat) (x : T) (z : ptr) : M T unit :=
  match fuel with
  | O => out_of_fuel
  | S fuel =>
    match z with
    | None => ret tt
    | Some _ =>
      v ← getf value z;
      if x <? v then zl ← getf left z; Remove_loop fuel x zl
      else if x >? v then zr ← getf right z; Remove_loop fuel x zr
      else deleteNode z
    end
  end.

Definition Remove (x : T) : M T unit :=
  fuel ← get_fuel;
  z ← get_root;
  Remove_loop fuel x z.

(** [Min] and [Max] *)
Definition Min : M T (T * bool) :=
  r ← get_root;
  match r with
  | None => ret (zero, false)
  | Some _ =>
    fuel ← get_fuel;
    m ← minNode fuel r;
    v ← getf value m;
    ret (v, true)
  end.

Definition Max : M T (T * bool) :=
  r ← get_root;
  match r with
  | None => ret (zero, false)
  | Some _ =>
    fuel ← get_fuel;
    m ← maxNode fuel r;
    v ← getf value m;
    ret (v, true)
  end.

(** [All]: the loop [for len(stack) > 0 || n != nil].  The head of [stack]
    is the top of the Go slice; [maxSize] is only the capacity the slice
    starts with and [append] grows it, so it plays no part here.  The result
    is the sequence of values handed to [yield], which stops the iteration
    by answering [false]. *)
Fixpoint All_loop (fuel : nat) (yield : T → bool) (stack : list ptr)
    (n : ptr) (out : list T) : M T (list T) :=
  match fuel with
  | O => out_of_fuel
  | S fuel =>
    match n with
    | Some _ =>
      nl ← getf left n;
      All_loop fuel yield (n :: stack) nl out
    | None =>
      match stack with
      | [] => ret out
      | n :: stack =>
        v ← getf value n;
        if yield v then
          nr ← getf right n;
          All_loop fuel yield stack nr (out ++ [v])
        else ret (out ++ [v])
      end
    end
  end.

Definition All_with (yield : T → bool) : M T (list T) :=
  fuel ← get_fuel;
  n ← get_root;
  All_loop (2 * fuel) yield [] n [].

(** Ranging over the whole sequence. *)
Definition All : M T (list T) := All_with (λ _, true).

End Methods.

(** * The vocabulary of the specification

    ** Trees and contexts

    A [tree] records, for every node reachable from a pointer, its address
    and the fields [color] and [value]; the fields [left], [right] and
    [parent] of the heap are the ones the tree's own structure dictates
    ([shape]).  A context ([ctx]) is the path from a node up to the root,
    innermost frame first: it is the functional reading of the chain of
    [parent] pointers.  The addresses of a tree are pairwise distinct; to use
    this on a tree that is partly known, its address list is read as a list
    of single addresses and of whole sublists ([item]), and [distinct] spells
    out what [NoDup] says about them. *)

Section TreeDefs.
Context {T : Type}.

Inductive tree : Type :=
  | Leaf
  | Node (a : addr) (c : colorT) (v : T) (l r : tree).

Definition ptr_of (t : tree) : ptr :=
  match t with
  | Leaf => None
  | Node a _ _ _ _ => Some a
  end.

Fixpoint shape (h : gmap addr (node T)) (par : ptr) (t : tree) : Prop :=
  match t with
  | Leaf => True
  | Node a c v l r =>
    h !! a = Some (mkNode v c (ptr_of l) (ptr_of r) par)
    ∧ shape h (Some a) l ∧ shape h (Some a) r
  end.

Fixpoint addrs (t : tree) : list addr :=
  match t with
  | Leaf => []
  | Node a _ _ l r => addrs l ++ a :: addrs r
  end.

Fixpoint elements (t : tree) : list T :=
  match t with
  | Leaf => []
  | Node _ _ v l r => elements l ++ v :: elements r
  end.

Fixpoint height (t : tree) : nat :=
  match t with
  | Leaf => O
  | Node _ _ _ l r => S (height l `max` height r)
  end.

Inductive frame : Type :=
  | FL (a : addr) (c : colorT) (v : T) (r : tree)
  | FR (a : addr) (c : colorT) (v : T) (l : tree).

Definition ctx := list frame.

Fixpoint plug (k : ctx) (t : tree) : tree :=
  match k with
  | [] => t
  | FL a c v r :: k => plug k (Node a c v t r)
  | FR a c v l :: k => plug k (Node a c v l t)
  end.

Definition frame_addr (f : frame) : addr :=
  match f with FL a _ _ _ | FR a _ _ _ => a end.

Definition frame_color (f : frame) : colorT :=
  match f with FL _ c _ _ | FR _ c _ _ => c end.

Definition ctx_ptr (k : ctx) : ptr :=
  match k with
  | [] => None
  | f :: _ => Some (frame_addr f)
  end.

Fixpoint root_of (k : ctx) (p : ptr) : ptr :=
  match k with
  | [] => p
  | f :: k => root_of k (Some (frame_addr f))
  end.

Fixpoint shape_ctx (h : gmap addr (node T)) (k : ctx) (child : ptr) : Prop :=
  match k with
  | [] => True
  | FL a c v r :: k =>
    h !! a = Some (mkNode v c child (ptr_of r) (ctx_ptr k))
    ∧ shape h (Some a) r ∧ shape_ctx h k (Some a)
  | FR a c v l :: k =>
    h !! a = Some (mkNode v c (ptr_of l) child (ctx_ptr k))
    ∧ shape h (Some a) l ∧ shape_ctx h k (Some a)
  end.

Fixpoint addrs_l (k : ctx) : list addr :=
  match k with
  | [] => []
  | FL _ _ _ _ :: k => addrs_l k
  | FR a _ _ l :: k => addrs_l k ++ addrs l ++ [a]
  end.

Fixpoint addrs_r (k : ctx) : list addr :=
  match k with
  | [] => []
  | FL a _ _ r :: k => a :: addrs r ++ addrs_r k
  | FR _ _ _ _ :: k => addrs_r k
  end.

Fixpoint elements_l (k : ctx) : list T :=
  match k with
  | [] => []
  | FL _ _ _ _ :: k => elements_l k
  | FR _ _ v l :: k => elements_l k ++ elements l ++ [v]
  end.

Fixpoint elements_r (k : ctx) : list T :=
  match k with
  | [] => []
  | FL _ _ v r :: k => v :: elements r ++ elements_r k
  | FR _ _ _ _ :: k => elements_r k
  end.

Inductive item : Type :=
  | One (a : addr)
  | Many (l : list addr).

Fixpoint flat (xs : list item) : list addr :=
  match xs with
  | [] => []
  | One a :: xs => a :: flat xs
  | Many l :: xs => l ++ flat xs
  end.

Definition apart (x y : item) : Prop :=
  match x, y with
  | One a, One b => a ≠ b
  | One a, Many l => a ∉ l
  | Many l, One b => b ∉ l
  | Many l, Many k => ∀ a, a ∈ l → a ∉ k
  end.

Definition solo (x : item) : Prop :=
  match x with
  | One _ => True
  | Many l => NoDup l
  end.

Fixpoint apart_all (x : item) (ys : list item) : Prop :=
  match ys with
  | [] => True
  | y :: ys => apart x y ∧ apart_all x ys
  end.

Fixpoint distinct (xs : list item) : Prop :=
  match xs with
  | [] => True
  | x :: xs => solo x ∧ apart_all x xs ∧ distinct xs
  end.

End TreeDefs.

Global Arguments tree : clear implicits.
Global Arguments frame : clear implicits.
Global Arguments ctx : clear implicits.

(** ** Outcomes, invariants, sequences of operations *)

Section SpecDefs.
Context {T : Type} `{Ordered T}.
Implicit Types (s : set T) (h : gmap addr (node T)) (t : tree T) (k : ctx T).
Implicit Types (x y v : T).

Definition wp {A} (m : M T A) (s : set T)
    (Q : A → set T → Prop) (E : set T → Prop) : Prop :=
  match m s with
  | Ok a s' => Q a s'
  | Panic s' => E s'
  | OutOfFuel => False
  end.

(** The state holds the tree [t]. *)
Definition tree_in s t : Prop :=
  shape (heap s) None t ∧ root s = ptr_of t ∧ NoDup (addrs t).

Definition lessP (x y : T) : Prop := less x y = true.

Definition sorted (l : list T) : Prop := StronglySorted lessP l.

Definition bst t : Prop := sorted (elements t).

Definition root_black t : Prop :=
  match t with
  | Node _ red _ _ _ => False
  | _ => True
  end.

Fixpoint mem (x : T) (t : tree T) : bool :=
  match t with
  | Leaf => false
  | Node _ _ v l r =>
    if x <? v then mem x l
    else if x >? v then mem x r
    else true
  end.

Fixpoint locate (x : T) (t : tree T) (k : ctx T) : ctx T * tree T :=
  match t with
  | Leaf => (k, Leaf)
  | Node a c v l r =>
    if x <? v then locate x l (FL a c v r :: k)
    else if x >? v then locate x r (FR a c v l :: k)
    else (k, t)
  end.

(** The outermost frame of a context, the root, is black. *)
Fixpoint ctx_root_black (k : ctx T) : Prop :=
  match k with
  | [] => True
  | f :: k' =>
    match k' with
    | [] => frame_color f = black
    | _ :: _ => ctx_root_black k'
    end
  end.

(** What every state reached from [New] satisfies: the heap holds a search
    tree with a black root, and [size] counts its nodes.  (The remaining
    red-black conditions are not part of it: [Remove] does not keep them.) *)
Definition inv s t : Prop :=
  tree_in s t ∧ bst t ∧ root_black t ∧ size s = Z.of_nat (length (elements t)).

(** The frames of a search path say on which side [x] lies. *)
Definition frame_dir_ok x (f : frame T) : Prop :=
  match f with
  | FL _ _ v _ => less x v = true
  | FR _ _ v _ => less x v = false
  end.

Fixpoint descend_left (t : tree T) (k : ctx T) : ctx T * tree T :=
  match t with
  | Leaf => (k, Leaf)
  | Node a c v l r =>
    match l with
    | Leaf => (k, t)
    | Node _ _ _ _ _ => descend_left l (FL a c v r :: k)
    end
  end.

Fixpoint descend_right (t : tree T) (k : ctx T) : ctx T * tree T :=
  match t with
  | Leaf => (k, Leaf)
  | Node a c v l r =>
    match r with
    | Leaf => (k, t)
    | Node _ _ _ _ _ => descend_right r (FR a c v l :: k)
    end
  end.

Definition is_FL (f : frame T) : Prop :=
  match f with FL _ _ _ _ => True | FR _ _ _ _ => False end.

Definition is_FR (f : frame T) : Prop :=
  match f with FL _ _ _ _ => False | FR _ _ _ _ => True end.

Inductive op : Type :=
  | OpInsert (x : T)
  | OpRemove (x : T).

Definition step (o : op) : M T unit :=
  match o with
  | OpInsert x => Insert x
  | OpRemove x => Remove x
  end.

(** The calls of [ops], one after the other; a panic ends the sequence. *)
Fixpoint run (ops : list op) : M T unit :=
  match ops with
  | [] => ret tt
  | o :: ops => step o;; run ops
  end.

(** The state a call leaves behind, whether it returned or panicked. *)
Definition outcome {A} (r : result T A) : option (set T) :=
  match r with
  | Ok _ s => Some s
  | Panic s => Some s
  | OutOfFuel => None
  end.

(** The set of values a sequence of operations leaves, kept as a list
    without repetitions: the values inserted and not removed since. *)
Definition same x y : bool := negb (less x y) && negb (less y x).

Definition model_step (m : list T) (o : op) : list T :=
  match o with
  | OpInsert x => if existsb (same x) m then m else x :: m
  | OpRemove x => List.filter (λ y, negb (same x y)) m
  end.

Definition model (ops : list op) : list T := fold_left model_step ops [].

Definition is_red t : bool :=
  match t with
  | Node _ red _ _ _ => true
  | _ => false
  end.

(** No red node has a red child. *)
Fixpoint no_red_red t : bool :=
  match t with
  | Leaf => true
  | Node _ c _ l r =>
    match c with
    | red => negb (is_red l) && negb (is_red r)
    | black => true
    end && no_red_red l && no_red_red r
  end.

(** The number of black nodes on every path from the root of [t] down to a
    nil child, when all these paths agree. *)
Fixpoint black_height t : option nat :=
  match t with
  | Leaf => Some O
  | Node _ c _ l r =>
    match black_height l, black_height r with
    | Some hl, Some hr =>
      if decide (hl = hr)
      then Some (match c with red => hl | black => S hl end)
      else None
    | _, _ => None
    end
  end.

End SpecDefs.

Global Arguments op : clear implicits.

(** ** The red-black conditions along a path

    [Insert] and [Remove] work at the end of a search path.  What the
    red-black conditions of the whole tree ask of the part above a subtree
    is spelled out on the context of that subtree. *)

Section RBDefs.
Context {T : Type}.
Implicit Types (t : tree T) (k : ctx T) (f : frame T).

Definition frame_sibling f : tree T :=
  match f with FL _ _ _ r => r | FR _ _ _ l => l end.

Definition color_is_red (c : colorT) : bool :=
  match c with red => true | black => false end.

(** What the two red-black conditions ask of a context, the path above a
    subtree: [ctx_nrr k cr] when the root of the subtree is red exactly if
    [cr] says so, and [ctx_bal k h] when its black height is [h]. *)
Definition frame_nrr f (cr : bool) : bool :=
  no_red_red (frame_sibling f)
  && match frame_color f with
     | red => negb cr && negb (is_red (frame_sibling f))
     | black => true
     end.

Fixpoint ctx_nrr k (cr : bool) : bool :=
  match k with
  | [] => true
  | f :: k' => frame_nrr f cr && ctx_nrr k' (color_is_red (frame_color f))
  end.

Definition frame_bh f (h : nat) : nat :=
  match frame_color f with red => h | black => S h end.

Fixpoint ctx_bal k (h : nat) : bool :=
  match k with
  | [] => true
  | f :: k' =>
    bool_decide (black_height (frame_sibling f) = Some h)
    && ctx_bal k' (frame_bh f h)
  end.

Definition blacken t : tree T :=
  match t with
  | Leaf => Leaf
  | Node a _ v l r => Node a black v l r
  end.

(** The red-black conditions. *)
Definition red_black t : Prop :=
  root_black t ∧ no_red_red t = true ∧ is_Some (black_height t).

End RBDefs.

(** ** What [deleteNode] unlinks *)

Section UnlinkDefs.
Context {T : Type} `{Ordered T}.
Implicit Types (t : tree T) (k : ctx T).

(** What [deleteNode] takes out of the tree when the node to delete has the
    colour [c], the subtrees [L] and [R], and lies below [k]: that node
    itself when it has at most one child, and otherwise its successor [y],
    the leftmost node of [R], which then takes the place and the colour of
    the deleted node.  The result is the context of the place that was
    emptied, the subtree [x] that moved into it, and [originalColor]. *)
Definition unlink k (c : colorT) (L R : tree T) : ctx T * tree T * colorT :=
  match L, R with
  | Leaf, _ => (k, R, c)
  | _, Leaf => (k, L, c)
  | _, _ =>
    match descend_left R [] with
    | (kl, Node y cy vy _ ry) => (kl ++ FR y c vy L :: k, ry, cy)
    | (_, Leaf) => (k, Leaf, c)
    end
  end.

(** The tree [Remove x] leaves when [deleteFixup], if it runs, only has to
    paint [x] black. *)
Definition remove_tree (x : T) t : tree T :=
  match locate x t [] with
  | (k, Node _ c _ L R) =>
    match unlink k c L R with
    | (kx, X, black) => plug kx (blacken X)
    | (kx, X, red) => plug kx X
    end
  | (_, Leaf) => t
  end.

(** [Remove x] takes a black node without children out of the tree, and not
    the root. *)
Definition unlinks_black_leaf (x : T) t : bool :=
  match locate x t [] with
  | (k, Node _ c _ L R) =>
    match unlink k c L R with
    | (_ :: _, Leaf, black) => true
    | _ => false
    end
  | (_, Leaf) => false
  end.

End UnlinkDefs.

(** ** Iteration that stops early, callers that recover *)

Section MoreDefs.
Context {T : Type} `{Ordered T}.

(** What a loop [for v := range s.All()] gets to see of the sequence [l]
    when its body goes on after [v] exactly if [yield v]: the values up to
    and including the first one at which it breaks. *)
Fixpoint yielded (yield : T → bool) (l : list T) : list T :=
  match l with
  | [] => []
  | v :: l => if yield v then v :: yielded yield l else [v]
  end.

(** The calls of [ops] by a caller that recovers from every panic and goes
    on with the set as the panic left it. *)
Fixpoint run_recover (ops : list (op T)) (s : set T) : option (set T) :=
  match ops with
  | [] => Some s
  | o :: ops =>
    match outcome (step o s) with
    | Some s' => run_recover ops s'
    | None => None
    end
  end.

End MoreDefs.

(** ** Concrete sequences of operations on integers *)

Definition ops_C1 : list (op Z) :=
  [OpInsert 0; OpInsert 1; OpInsert 2; OpInsert 3; OpRemove 0].

Definition tree_C1 : tree Z :=
  Node 1%nat black 1 Leaf
    (Node 2%nat black 2 Leaf (Node 3%nat red 3 Leaf Leaf)).

(** The state these calls build. *)
Definition state_C1 : set Z :=
  match run (H := Z_Ordered) ops_C1 New with
  | Ok _ s => s
  | _ => New
  end.

Definition ops_C2 : list (op Z) :=
  [OpInsert 0; OpInsert 2; OpInsert 3; OpInsert 1; OpRemove 2; OpInsert 4;
   OpInsert 5; OpInsert 6; OpRemove 3; OpRemove 5; OpRemove 4].

(** The state the calls before the last one build: the tree
    [6(4(0(nil, 1), nil), nil)] with 1 red and the other nodes black. *)
Definition state_C2 : set Z :=
  match run (H := Z_Ordered) (removelast ops_C2) New with
  | Ok _ s => s
  | _ => New
  end.

Definition ops_scenario : list (op Z) :=
  [OpInsert 5; OpInsert 3; OpInsert 8; OpInsert 1; OpInsert 4; OpInsert 7;
   OpInsert 9].

Definition state_scenario : set Z :=
  match run (H := Z_Ordered) ops_scenario New with
  | Ok _ s => s
  | _ => New
  end.

(** The tree of [state_scenario]: [5(3(1, 4), 8(7, 9))] with black inner
    nodes and red leaves. *)
Definition tree_scenario : tree Z :=
  Node 0%nat black 5
    (Node 1%nat black 3 (Node 3%nat red 1 Leaf Leaf) (Node 4%nat red 4 Leaf Leaf))
    (Node 2%nat black 8 (Node 5%nat red 7 Leaf Leaf) (Node 6%nat red 9 Leaf Leaf)).

(** The same values inserted in increasing order: the tree is another one. *)
Definition ops_sorted : list (op Z) :=
  [OpInsert 1; OpInsert 3; OpInsert 4; OpInsert 5; OpInsert 7; OpInsert 8;
   OpInsert 9].

Definition state_sorted : set Z :=
  match run (H := Z_Ordered) ops_sorted New with
  | Ok _ s => s
  | _ => New
  end.

(** The path from the node of 1 up to the root of [tree_scenario]. *)
Definition ctx_scenario : ctx Z :=
  [FL 1%nat black 3 (Node 4%nat red 4 Leaf Leaf);
   FL 0%nat black 5
     (Node 2%nat black 8 (Node 5%nat red 7 Leaf Leaf) (Node 6%nat red 9 Leaf Leaf))].

(** * Verification

    ** Trees in the heap *)

Section Trees.
Context {T : Type}.
Implicit Types (h : gmap addr (node T)) (t : tree T) (k : ctx T).

Lemma addrs_plug k t : addrs (plug k t) = addrs_l k ++ addrs t ++ addrs_r k.
Proof.
  revert t. induction k as [|[a c v r|a c v l] k IH]; intros t; simpl.
  - by rewrite app_nil_r.
  - rewrite IH. simpl. by rewrite <- !app_assoc.
  - rewrite IH. simpl. by rewrite <- !app_assoc.
Qed.

Lemma elements_plug k t :
  elements (plug k t) = elements_l k ++ elements t ++ elements_r k.
Proof.
  revert t. induction k as [|[a c v r|a c v l] k IH]; intros t; simpl.
  - by rewrite app_nil_r.
  - rewrite IH. simpl. by rewrite <- !app_assoc.
  - rewrite IH. simpl. by rewrite <- !app_assoc.
Qed.

Lemma ptr_of_plug k t : ptr_of (plug k t) = root_of k (ptr_of t).
Proof.
  revert t. induction k as [|[a c v r|a c v l] k IH]; intros t; simpl;
    [done | by rewrite IH ..].
Qed.

Lemma shape_plug h k t :
  shape h None (plug k t) ↔ shape_ctx h k (ptr_of t) ∧ shape h (ctx_ptr k) t.
Proof.
  revert t. induction k as [|[a c v r|a c v l] k IH]; intros t; simpl.
  - naive_solver.
  - rewrite IH. simpl. naive_solver.
  - rewrite IH. simpl. naive_solver.
Qed.

Lemma length_addrs_elements t : length (elements t) = length (addrs t).
Proof.
  induction t as [|a c v l IHl r IHr]; simpl; [done|].
  rewrite !length_app. simpl. lia.
Qed.

Lemma height_le_addrs t : (height t ≤ length (addrs t))%nat.
Proof.
  induction t as [|a c v l IHl r IHr]; simpl; [done|].
  rewrite length_app. simpl. lia.
Qed.

Lemma length_ctx_addrs k :
  (length k ≤ length (addrs_l k) + length (addrs_r k))%nat.
Proof.
  induction k as [|[a c v r|a c v l] k IH]; simpl; [done|..].
  - rewrite length_app. lia.
  - rewrite !length_app. simpl. lia.
Qed.

(** Writes outside a tree leave it alone. *)
Lemma shape_insert h par t a n :
  a ∉ addrs t → shape h par t → shape (<[a := n]> h) par t.
Proof.
  revert par. induction t as [|b c v l IHl r IHr]; intros par Ha; simpl; [done|].
  simpl in Ha. rewrite not_elem_of_app, not_elem_of_cons in Ha.
  destruct Ha as (Hl & Hb & Hr). intros (Hlk & Hsl & Hsr).
  split_and!; [by rewrite lookup_insert_ne | by apply IHl | by apply IHr].
Qed.

Lemma shape_ctx_insert h k child a n :
  a ∉ addrs_l k → a ∉ addrs_r k →
  shape_ctx h k child → shape_ctx (<[a := n]> h) k child.
Proof.
  revert child. induction k as [|[b c v r|b c v l] k IH]; intros child; simpl;
    [done|..].
  - rewrite not_elem_of_cons, not_elem_of_app.
    intros Hl (Hb & Hr & Hk) (Hlk & Hs & Hc).
    split_and!; [by rewrite lookup_insert_ne | by apply shape_insert | by apply IH].
  - rewrite !not_elem_of_app, not_elem_of_cons.
    intros (Hk & Hl & Hb & _) Hr (Hlk & Hs & Hc).
    split_and!; [by rewrite lookup_insert_ne | by apply shape_insert | by apply IH].
Qed.

Lemma shape_lookup h par t a : shape h par t → a ∈ addrs t → is_Some (h !! a).
Proof.
  revert par. induction t as [|b c v l IHl r IHr]; intros par; simpl.
  - by intros _ ?%elem_of_nil.
  - intros (Hlk & Hl & Hr). rewrite elem_of_app, elem_of_cons.
    intros [?|[->|?]]; eauto.
Qed.

(** ** Distinct addresses *)

Lemma apart_all_One a ys : apart_all (One a) ys ↔ a ∉ flat ys.
Proof.
  induction ys as [|[b|l] ys IH]; simpl.
  - split; [intros _ ?%elem_of_nil; done | done].
  - rewrite not_elem_of_cons. naive_solver.
  - rewrite not_elem_of_app. naive_solver.
Qed.

Lemma apart_all_Many l ys : apart_all (Many l) ys ↔ ∀ a, a ∈ l → a ∉ flat ys.
Proof.
  induction ys as [|[b|k] ys IH]; simpl.
  - split; [intros _ a _ ?%elem_of_nil; done | done].
  - setoid_rewrite not_elem_of_cons. rewrite IH. split.
    + intros [Hb Hys] a Ha. split; [intros ->; done | by apply Hys].
    + intros Hall. split; [intros Hb; by destruct (Hall b Hb) | naive_solver].
  - setoid_rewrite not_elem_of_app. rewrite IH. naive_solver.
Qed.

Lemma NoDup_flat xs : NoDup (flat xs) ↔ distinct xs.
Proof.
  induction xs as [|[a|l] xs IH]; simpl.
  - split; [done | intros; constructor].
  - rewrite NoDup_cons, apart_all_One, IH. naive_solver.
  - rewrite NoDup_app, apart_all_Many, IH. naive_solver.
Qed.

End Trees.

(** Reading a list expression as a list of items. *)
Ltac reify_items l :=
  lazymatch l with
  | ?l1 ++ ?l2 =>
    let r1 := reify_items l1 in
    let r2 := reify_items l2 in
    let r := eval cbv [app] in (r1 ++ r2) in r
  | ?a :: ?l' =>
    let r := reify_items l' in constr:(One a :: r)
  | [] => constr:(@nil item)
  | _ => constr:([Many l])
  end.

Ltac destruct_ands :=
  repeat match goal with
         | H : _ ∧ _ |- _ => destruct H
         | H : True |- _ => clear H
         end.

(** [distinct_facts H] turns [H : NoDup l] into its atomic consequences. *)
Ltac distinct_facts H :=
  simpl in H;
  lazymatch type of H with
  | NoDup ?l =>
    let xs := reify_items l in
    let E := fresh "E" in
    assert (l = flat xs) as E
      by (simpl; rewrite ?app_nil_r; repeat (rewrite <- ?app_assoc; simpl); reflexivity);
    rewrite E in H; clear E;
    apply NoDup_flat in H; simpl in H; destruct_ands
  end.

Ltac neq :=
  first [ assumption
        | apply not_eq_sym; assumption
        | congruence ].

(** [prove_distinct] proves [NoDup l] from such atomic facts. *)
Ltac prove_distinct :=
  simpl;
  lazymatch goal with
  | |- NoDup ?l =>
    let xs := reify_items l in
    let E := fresh "E" in
    assert (l = flat xs) as E
      by (simpl; rewrite ?app_nil_r; repeat (rewrite <- ?app_assoc; simpl);
          reflexivity);
    rewrite E; clear E;
    apply NoDup_flat; simpl; split_and!;
    first [ exact I | assumption | neq ]
  end.

(** ** Weakest preconditions

    [wp m s Q E]: run from [s], the computation [m] does not exhaust its
    fuel; when it returns [a] in [s'], [Q a s'] holds, and when it panics
    in [s'], [E s'] holds. *)

Section WP.
Context {T : Type}.
Implicit Types (s : set T) (h : gmap addr (node T)).

Lemma wp_ret {A} (a : A) s Q E : Q a s → wp (ret a) s Q E.
Proof. done. Qed.

Lemma wp_bind {A B} (m : M T A) (k : A → M T B) s Q E :
  wp m s (λ a s', wp (k a) s' Q E) E → wp (bind m k) s Q E.
Proof. unfold wp, bind. by destruct (m s). Qed.

Lemma wp_mono {A} (m : M T A) s (Q Q' : A → set T → Prop) (E E' : set T → Prop) :
  wp m s Q E → (∀ a s', Q a s' → Q' a s') → (∀ s', E s' → E' s') →
  wp m s Q' E'.
Proof. unfold wp. destruct (m s); eauto. Qed.

Lemma wp_ok {A} (m : M T A) s Q E a s' : wp m s Q E → m s = Ok a s' → Q a s'.
Proof. unfold wp. intros Hwp Hm. by rewrite Hm in Hwp. Qed.

Lemma wp_panic {A} (m : M T A) s Q E s' : wp m s Q E → m s = Panic s' → E s'.
Proof. unfold wp. intros Hwp Hm. by rewrite Hm in Hwp. Qed.

Lemma wp_no_timeout {A} (m : M T A) s Q E : wp m s Q E → m s ≠ OutOfFuel.
Proof. unfold wp. intros Hwp Hm. by rewrite Hm in Hwp. Qed.

Lemma wp_total {A} (m : M T A) s Q :
  wp m s Q (λ _, False) → ∃ a s', m s = Ok a s' ∧ Q a s'.
Proof. unfold wp. destruct (m s); naive_solver. Qed.

Lemma wp_load a n s Q E :
  heap s !! a = Some n → Q n s → wp (load (Some a)) s Q E.
Proof. unfold wp, load. by intros ->. Qed.

Lemma wp_getf {A} (f : node T → A) a n s Q E :
  heap s !! a = Some n → Q (f n) s → wp (getf f (Some a)) s Q E.
Proof. unfold wp, getf, bind, load, ret. by intros ->. Qed.

Lemma wp_getf_nil {A} (f : node T → A) s (Q : A → set T → Prop) (E : set T → Prop) :
  E s → wp (getf f None) s Q E.
Proof. done. Qed.

Lemma wp_setf g a n s Q E :
  heap s !! a = Some n →
  Q tt (with_heap (<[a := g n]> (heap s)) s) →
  wp (setf g (Some a)) s Q E.
Proof. unfold wp, setf. by intros ->. Qed.

Lemma wp_get_root s Q E : Q (root s) s → wp get_root s Q E.
Proof. done. Qed.

Lemma wp_set_root r s Q E : Q tt (with_root r s) → wp (set_root r) s Q E.
Proof. done. Qed.

Lemma wp_get_size s Q E : Q (size s) s → wp get_size s Q E.
Proof. done. Qed.

Lemma wp_set_size n s Q E : Q tt (with_size n s) → wp (set_size n) s Q E.
Proof. done. Qed.

Lemma wp_get_fuel s Q E : Q (fuel_of s) s → wp get_fuel s Q E.
Proof. done. Qed.

Lemma wp_alloc n s Q E :
  (∀ a, heap s !! a = None → Q (Some a) (with_heap (<[a := n]> (heap s)) s)) →
  wp (alloc n) s Q E.
Proof.
  intros HQ. unfold wp, alloc. apply HQ.
  apply not_elem_of_dom, is_fresh.
Qed.

Lemma ptr_eqb_refl (p : ptr) : ptr_eqb p p = true.
Proof. unfold ptr_eqb. by rewrite bool_decide_eq_true. Qed.

Lemma ptr_eqb_ne (a b : addr) : a ≠ b → ptr_eqb (Some a) (Some b) = false.
Proof. intros. unfold ptr_eqb. rewrite bool_decide_eq_false. congruence. Qed.

Lemma ptr_eqb_Some_None (a : addr) : ptr_eqb (Some a) None = false.
Proof. done. Qed.

Lemma ptr_eqb_None_Some (a : addr) : ptr_eqb None (Some a) = false.
Proof. done. Qed.

Lemma ptr_eqb_notin (a : addr) (t : tree T) :
  a ∉ addrs t → ptr_eqb (Some a) (ptr_of t) = false.
Proof.
  destruct t as [|b c v l r]; simpl; [done|].
  rewrite not_elem_of_app, not_elem_of_cons. intros (_ & Hne & _).
  by apply ptr_eqb_ne.
Qed.

End WP.

(** Symbolic execution over a heap given by its lookups. *)
Ltac wp_simpl :=
  cbn [heap root size with_heap with_root with_size
       value color left right parent
       with_color with_left with_right with_parent
       ptr_of path ctx_ptr frame_addr root_of].

Ltac wp_simpl_all :=
  cbn [heap root size with_heap with_root with_size
       value color left right parent
       with_color with_left with_right with_parent
       ptr_of path ctx_ptr frame_addr root_of] in *.

Ltac hlookup :=
  wp_simpl;
  repeat (rewrite lookup_insert_ne by neq);
  first [ apply lookup_insert_eq | eassumption ].

Ltac ptr_eqb_simpl :=
  first [ rewrite ptr_eqb_refl
        | rewrite ptr_eqb_Some_None
        | rewrite ptr_eqb_None_Some
        | rewrite ptr_eqb_ne by neq
        | rewrite ptr_eqb_notin by assumption ].

Ltac wp_step :=
  lazymatch goal with
  | |- wp (bind _ _) _ _ _ => apply wp_bind
  | |- wp (ret _) _ _ _ => apply wp_ret
  | |- wp (getf _ (Some _)) _ _ _ => eapply wp_getf; [hlookup|]
  | |- wp (setf _ (Some _)) _ _ _ => eapply wp_setf; [hlookup|]
  | |- wp (set_color _ _) _ _ _ => unfold set_color
  | |- wp (set_left _ _) _ _ _ => unfold set_left
  | |- wp (set_right _ _) _ _ _ => unfold set_right
  | |- wp (set_parent _ _) _ _ _ => unfold set_parent
  | |- wp get_root _ _ _ => apply wp_get_root
  | |- wp (set_root _) _ _ _ => apply wp_set_root
  | |- wp get_fuel _ _ _ => apply wp_get_fuel
  | |- wp get_size _ _ _ => apply wp_get_size
  | |- wp (set_size _) _ _ _ => apply wp_set_size
  | |- wp (if ptr_eqb _ _ then _ else _) _ _ _ => ptr_eqb_simpl
  end; wp_simpl.

Ltac wp_steps := repeat wp_step.

Section TreeLevel.
Context {T : Type}.
Implicit Types (s : set T) (h : gmap addr (node T)) (t : tree T) (k : ctx T).

Lemma tree_in_lookup s k a c v l r :
  tree_in s (plug k (Node a c v l r)) →
  heap s !! a = Some (mkNode v c (ptr_of l) (ptr_of r) (ctx_ptr k)).
Proof.
  intros (Hs & _ & _). apply shape_plug in Hs as [_ Hs]. simpl in Hs. tauto.
Qed.

Lemma wp_getf_tree {A} (f : node T → A) s k a c v l r Q E :
  tree_in s (plug k (Node a c v l r)) →
  Q (f (mkNode v c (ptr_of l) (ptr_of r) (ctx_ptr k))) s →
  wp (getf f (Some a)) s Q E.
Proof. intros Ht HQ. eapply wp_getf; [by eapply tree_in_lookup | done]. Qed.

End TreeLevel.

(** Closing the goals a heap-level proof ends with. *)
Ltac notin := first [ assumption | apply not_elem_of_nil ].

Ltac solve_shape :=
  wp_simpl;
  lazymatch goal with
  | |- True => exact I
  | |- shape _ _ Leaf => exact I
  | |- shape_ctx _ [] _ => exact I
  | |- shape (<[_ := _]> _) _ _ =>
    repeat (apply shape_insert; [notin|]); assumption
  | |- shape_ctx (<[_ := _]> _) _ _ =>
    repeat (apply shape_ctx_insert; [notin | notin |]); assumption
  | |- shape _ _ _ => assumption
  | |- shape_ctx _ _ _ => assumption
  | |- _ !! _ = Some _ => hlookup
  end.

Section Rotations.
Context {T : Type}.
Implicit Types (s : set T) (h : gmap addr (node T)) (t : tree T) (k : ctx T).

Lemma NoDup_plug_eq k t1 t2 :
  addrs t1 = addrs t2 → NoDup (addrs (plug k t1)) → NoDup (addrs (plug k t2)).
Proof. intros Heq. rewrite !addrs_plug. by rewrite Heq. Qed.

Lemma wp_set_color_tree s k a c v l r c' Q E :
  tree_in s (plug k (Node a c v l r)) →
  (∀ s', tree_in s' (plug k (Node a c' v l r)) → size s' = size s → Q tt s') →
  wp (set_color (Some a) c') s Q E.
Proof.
  intros (Hs & Hr & Hnd) HQ. destruct s as [h rt sz]. wp_simpl_all.
  assert (NoDup (addrs (plug k (Node a c' v l r)))) as Hnd'
    by (revert Hnd; by apply NoDup_plug_eq).
  apply shape_plug in Hs as [Hk Hs]. simpl in Hs. destruct Hs as (Ha & Hl & Hr').
  rewrite addrs_plug in Hnd. distinct_facts Hnd.
  wp_steps. apply HQ; [|done].
  split_and!; [| by rewrite ptr_of_plug in * | done].
  apply shape_plug. split; [solve_shape|]. simpl. split_and!; solve_shape.
Qed.

Lemma wp_leftRotate_tree s k x cx vx α y cy vy β γ Q E :
  tree_in s (plug k (Node x cx vx α (Node y cy vy β γ))) →
  (∀ s', tree_in s' (plug k (Node y cy vy (Node x cx vx α β) γ)) →
         size s' = size s → Q tt s') →
  wp (leftRotate (Some x)) s Q E.
Proof.
  intros (Hs & Hr & Hnd) HQ. destruct s as [h rt sz]. wp_simpl_all.
  assert (NoDup (addrs (plug k (Node y cy vy (Node x cx vx α β) γ)))) as Hnd'.
  { revert Hnd. apply NoDup_plug_eq. simpl. by rewrite <- app_assoc. }
  apply shape_plug in Hs as [Hk Hs].
  rewrite addrs_plug in Hnd. rewrite ptr_of_plug in Hr.
  destruct β as [|b cb vb βl βr];
    destruct k as [|[p cp vp u|p cp vp u] k];
    simpl in Hs, Hk; destruct_ands; distinct_facts Hnd; subst rt;
    unfold leftRotate; wp_steps; (apply HQ; [|done]);
    (split_and!; [| by rewrite ptr_of_plug | done]);
    apply shape_plug; simpl; split_and!; solve_shape.
Qed.

Lemma wp_rightRotate_tree s k x cx vx α y cy vy β γ Q E :
  tree_in s (plug k (Node x cx vx (Node y cy vy α β) γ)) →
  (∀ s', tree_in s' (plug k (Node y cy vy α (Node x cx vx β γ))) →
         size s' = size s → Q tt s') →
  wp (rightRotate (Some x)) s Q E.
Proof.
  intros (Hs & Hr & Hnd) HQ. destruct s as [h rt sz]. wp_simpl_all.
  assert (NoDup (addrs (plug k (Node y cy vy α (Node x cx vx β γ))))) as Hnd'.
  { revert Hnd. apply NoDup_plug_eq. simpl. by rewrite <- app_assoc. }
  apply shape_plug in Hs as [Hk Hs].
  rewrite addrs_plug in Hnd. rewrite ptr_of_plug in Hr.
  destruct β as [|b cb vb βl βr];
    destruct k as [|[p cp vp u|p cp vp u] k];
    simpl in Hs, Hk; destruct_ands; distinct_facts Hnd; subst rt;
    unfold rightRotate; wp_steps; (apply HQ; [|done]);
    (split_and!; [| by rewrite ptr_of_plug | done]);
    apply shape_plug; simpl; split_and!; solve_shape.
Qed.

End Rotations.

(** ** Searching

    The three descents ([Contains], [Insert], [Remove]) follow the same
    path, which [locate] computes on the tree together with the context it
    leaves behind. *)

Section Search.
Context {T : Type} `{Ordered T}.
Implicit Types (s : set T) (h : gmap addr (node T)) (t : tree T) (k : ctx T).
Implicit Types (x y v : T).

Lemma less_asym x y : less x y = true → less y x = false.
Proof.
  intros Hxy. destruct (less y x) eqn:Hyx; [|done].
  by rewrite <- (less_irrefl x), (less_trans x y x).
Qed.

Lemma less_cases x y :
  (less x y = true ∧ less y x = false)
  ∨ (less x y = false ∧ less y x = true)
  ∨ (less x y = false ∧ less y x = false ∧ x = y).
Proof.
  destruct (less x y) eqn:Hxy.
  - left. split; [done|]. by apply less_asym.
  - destruct (less y x) eqn:Hyx; [by right; left|].
    right; right. split_and!; [done..|]. by apply less_total.
Qed.

Lemma sorted_app l1 l2 :
  sorted (l1 ++ l2) ↔
    (∀ x1 x2, x1 ∈ l1 → x2 ∈ l2 → less x1 x2 = true) ∧ sorted l1 ∧ sorted l2.
Proof. apply StronglySorted_app. Qed.

Lemma sorted_cons x l :
  sorted (x :: l) ↔ Forall (λ y, less x y = true) l ∧ sorted l.
Proof. apply StronglySorted_cons. Qed.

Lemma bst_node a c v l r :
  bst (Node a c v l r) ↔
    bst l ∧ bst r
    ∧ (∀ y, y ∈ elements l → less y v = true)
    ∧ (∀ y, y ∈ elements r → less v y = true).
Proof.
  unfold bst. simpl. rewrite sorted_app, sorted_cons, Forall_forall. split.
  - intros (Hlr & Hl & Hv & Hr). split_and!; [done..| |done].
    intros y Hy. apply Hlr; [done | by left].
  - intros (Hl & Hr & Hlv & Hvr). split_and!; [|done..].
    intros x1 x2 H1 [->|H2]%elem_of_cons; [by apply Hlv|].
    apply less_trans with v; [by apply Hlv | by apply Hvr].
Qed.

Lemma mem_spec x t : bst t → mem x t = true ↔ x ∈ elements t.
Proof.
  induction t as [|a c v l IHl r IHr]; simpl.
  - intros _. split; [done | by intros ?%elem_of_nil].
  - intros (Hl & Hr & Hlv & Hvr)%bst_node.
    rewrite elem_of_app, elem_of_cons.
    destruct (less_cases x v) as [[Hxv Hvx]|[[Hxv Hvx]|(Hxv & Hvx & ->)]];
      rewrite Hxv, ?Hvx.
    + rewrite IHl by done. split; [by left|]. intros [?|[->|Hx]]; [done|..].
      * by rewrite less_irrefl in Hxv.
      * apply Hvr in Hx. congruence.
    + rewrite IHr by done. split; [by right; right|]. intros [Hx|[->|?]]; [..|done].
      * apply Hlv in Hx. congruence.
      * by rewrite less_irrefl in Hvx.
    + split; [by right; left | done].
Qed.

Lemma locate_plug x t k :
  plug (locate x t k).1 (locate x t k).2 = plug k t.
Proof.
  revert k. induction t as [|a c v l IHl r IHr]; intros k; simpl; [done|].
  destruct (less x v); [by rewrite IHl|].
  destruct (less v x); [by rewrite IHr | done].
Qed.

Lemma locate_found x t k a c v l r :
  (locate x t k).2 = Node a c v l r → v = x.
Proof.
  revert k. induction t as [|a' c' v' l' IHl r' IHr]; intros k; simpl; [done|].
  destruct (less x v') eqn:Hxv; [by apply IHl|].
  destruct (less v' x) eqn:Hvx; [by apply IHr|].
  simpl. intros [= -> -> -> -> ->]. symmetry. by apply less_total.
Qed.

Lemma locate_mem x t k :
  mem x t = match (locate x t k).2 with Leaf => false | Node _ _ _ _ _ => true end.
Proof.
  revert k. induction t as [|a c v l IHl r IHr]; intros k; simpl; [done|].
  destruct (less x v); [by apply IHl|].
  destruct (less v x); [by apply IHr | done].
Qed.

(** The context a failed search ends with has [x] strictly between what
    lies to its left and what lies to its right. *)
Lemma locate_bounds x t k :
  bst t →
  (∀ y, y ∈ elements t → ∀ z, z ∈ elements_l k → less z y = true) →
  (∀ y, y ∈ elements t → ∀ z, z ∈ elements_r k → less y z = true) →
  (∀ z, z ∈ elements_l k → less z x = true) →
  (∀ z, z ∈ elements_r k → less x z = true) →
  (locate x t k).2 = Leaf →
  (∀ z, z ∈ elements_l (locate x t k).1 → less z x = true)
  ∧ (∀ z, z ∈ elements_r (locate x t k).1 → less x z = true).
Proof.
  revert k. induction t as [|a c v l IHl r IHr]; intros k; simpl; [done|].
  intros (Hl & Hr & Hlv & Hvr)%bst_node Hkl Hkr Hxl Hxr.
  destruct (less x v) eqn:Hxv; [|destruct (less v x) eqn:Hvx; [|done]].
  - apply IHl; simpl; [done|..].
    + intros y Hy z Hz. apply Hkl; [|done]. set_solver.
    + intros y Hy z. rewrite elem_of_cons, elem_of_app. intros [->|[Hz|Hz]].
      * by apply Hlv.
      * apply less_trans with v; [by apply Hlv | by apply Hvr].
      * apply Hkr; [|done]. set_solver.
    + done.
    + intros z. rewrite elem_of_cons, elem_of_app. intros [->|[Hz|Hz]].
      * done.
      * apply less_trans with v; [done | by apply Hvr].
      * by apply Hxr.
  - apply IHr; simpl; [done|..].
    + intros y Hy z. rewrite !elem_of_app, list_elem_of_singleton.
      intros [Hz|[Hz| ->]].
      * apply Hkl; [|done]. set_solver.
      * apply less_trans with v; [by apply Hlv | by apply Hvr].
      * by apply Hvr.
    + intros y Hy z Hz. apply Hkr; [|done]. set_solver.
    + intros z. rewrite !elem_of_app, list_elem_of_singleton.
      intros [Hz|[Hz| ->]].
      * by apply Hxl.
      * apply less_trans with v; [by apply Hlv | done].
      * done.
    + done.
Qed.

Lemma sorted_insert_middle x k :
  (∀ z, z ∈ elements_l k → less z x = true) →
  (∀ z, z ∈ elements_r k → less x z = true) →
  sorted (elements_l k ++ elements_r k) →
  sorted (elements_l k ++ x :: elements_r k).
Proof.
  intros Hl Hr (Hlr & Hsl & Hsr)%sorted_app.
  apply sorted_app. split_and!; [|done|].
  - intros x1 x2 H1 [->|H2]%elem_of_cons; [by apply Hl | by apply Hlr].
  - apply sorted_cons. split; [|done]. apply Forall_forall. exact Hr.
Qed.

(** *** The descents on the heap *)

Lemma wp_Contains_loop t fuel par x s Q E :
  shape (heap s) par t → (height t < fuel)%nat →
  Q (mem x t) s →
  wp (Contains_loop fuel x (ptr_of t)) s Q E.
Proof.
  revert fuel par. induction t as [|a c v l IHl r IHr]; intros fuel par Hs Hf HQ;
    (destruct fuel as [|fuel]; [simpl in Hf; lia|]); simpl in *; [done|].
  destruct Hs as (Ha & Hl & Hr).
  wp_steps. destruct (less x v); [|destruct (less v x)].
  - wp_steps. eapply IHl; [done | lia | done].
  - wp_steps. eapply IHr; [done | lia | done].
  - by wp_steps.
Qed.

Lemma wp_Insert_loop t fuel k x s Q E :
  shape (heap s) (ctx_ptr k) t → (height t < fuel)%nat →
  Q (match (locate x t k).2 with
     | Leaf => Some (ctx_ptr (locate x t k).1)
     | Node _ _ _ _ _ => None
     end) s →
  wp (Insert_loop fuel x (ctx_ptr k) (ptr_of t)) s Q E.
Proof.
  revert fuel k. induction t as [|a c v l IHl r IHr]; intros fuel k Hs Hf HQ;
    (destruct fuel as [|fuel]; [simpl in Hf; lia|]); simpl in *; [done|].
  destruct Hs as (Ha & Hl & Hr).
  wp_steps. destruct (less x v); [|destruct (less v x)].
  - wp_steps. apply (IHl fuel (FL a c v r :: k)); [done | lia | done].
  - wp_steps. apply (IHr fuel (FR a c v l :: k)); [done | lia | done].
  - by wp_steps.
Qed.

Lemma wp_Remove_loop t fuel k x s Q E :
  shape (heap s) (ctx_ptr k) t → (height t < fuel)%nat →
  match (locate x t k).2 with
  | Leaf => Q tt s
  | Node z _ _ _ _ => wp (deleteNode (Some z)) s Q E
  end →
  wp (Remove_loop fuel x (ptr_of t)) s Q E.
Proof.
  revert fuel k. induction t as [|a c v l IHl r IHr]; intros fuel k Hs Hf HQ;
    (destruct fuel as [|fuel]; [simpl in Hf; lia|]); simpl in *; [done|].
  destruct Hs as (Ha & Hl & Hr).
  wp_steps. destruct (less x v); [|destruct (less v x)].
  - wp_steps. apply (IHl fuel (FL a c v r :: k)); [done | lia | done].
  - wp_steps. apply (IHr fuel (FR a c v l :: k)); [done | lia | done].
  - done.
Qed.

End Search.

(** ** Symbolic execution on trees

    Recolourings and rotations take a tree to a tree, so the two fix-up
    loops are followed on the tree itself.  [find_focus a k t] looks for the
    node at address [a] in the known part [t] of a tree [plug k t] and
    returns the context of that node. *)

Ltac find_focus a k t :=
  match t with
  | Node a _ _ _ _ => constr:((k, t))
  | Node ?b ?c ?v ?l ?r => find_focus a (FL b c v r :: k) l
  | Node ?b ?c ?v ?l ?r => find_focus a (FR b c v l :: k) r
  end.

Ltac split_plug t :=
  lazymatch t with
  | plug ?k0 ?t0 => constr:((k0, t0))
  | _ => lazymatch type of t with
         | tree ?T => constr:((@nil (frame T), t))
         end
  end.

Ltac focus_of a t :=
  let kt := split_plug t in
  lazymatch kt with
  | (?k0, ?t0) => find_focus a k0 t0
  end.

Ltac next_state Ht Hsz :=
  let s' := fresh "s" in
  let Ht' := fresh "Ht" in
  let Hsz' := fresh "Hsz" in
  intros s' Ht' Hsz'; rewrite Hsz in Hsz'; clear Ht Hsz;
  cbn [plug] in Ht'.

Ltac tstep :=
  lazymatch goal with
  | |- wp (bind _ _) _ _ _ => apply wp_bind
  | |- wp (ret _) _ _ _ => apply wp_ret
  | Ht : tree_in ?s ?t |- wp (getf ?f (Some ?a)) ?s _ _ =>
    let foc := focus_of a t in
    lazymatch foc with
    | (?k, Node _ ?c ?v ?l ?r) =>
      apply (wp_getf_tree f s k a c v l r); [exact Ht|]
    end
  | Ht : tree_in ?s ?t, Hsz : size ?s = _
    |- wp (set_color (Some ?a) ?c') ?s _ _ =>
    let foc := focus_of a t in
    lazymatch foc with
    | (?k, Node _ ?c ?v ?l ?r) =>
      apply (wp_set_color_tree s k a c v l r c'); [exact Ht|];
      next_state Ht Hsz
    end
  | Ht : tree_in ?s ?t, Hsz : size ?s = _
    |- wp (leftRotate (Some ?x)) ?s _ _ =>
    let foc := focus_of x t in
    lazymatch foc with
    | (?k, Node _ ?cx ?vx ?α (Node ?y ?cy ?vy ?β ?γ)) =>
      apply (wp_leftRotate_tree s k x cx vx α y cy vy β γ); [exact Ht|];
      next_state Ht Hsz
    end
  | Ht : tree_in ?s ?t, Hsz : size ?s = _
    |- wp (rightRotate (Some ?x)) ?s _ _ =>
    let foc := focus_of x t in
    lazymatch foc with
    | (?k, Node _ ?cx ?vx (Node ?y ?cy ?vy ?α ?β) ?γ) =>
      apply (wp_rightRotate_tree s k x cx vx α y cy vy β γ); [exact Ht|];
      next_state Ht Hsz
    end
  | |- wp (if ptr_eqb _ _ then _ else _) _ _ _ => ptr_eqb_simpl
  | |- wp (if bool_decide (?c = ?c) then _ else _) _ _ _ =>
    rewrite (bool_decide_true (c = c)) by reflexivity
  | |- wp (if bool_decide (_ = _) then _ else _) _ _ _ =>
    rewrite bool_decide_false by discriminate
  end; wp_simpl.

Ltac tsteps := wp_simpl; repeat tstep.

(** In-order lists do not see colours or rotations. *)
Ltac solve_inorder :=
  cbn [plug]; rewrite ?addrs_plug, ?elements_plug; simpl;
  repeat (rewrite <- ?app_assoc; simpl); reflexivity.

Section InsertFixup.
Context {T : Type} `{Ordered T}.
Implicit Types (s : set T) (h : gmap addr (node T)) (t : tree T) (k : ctx T).

Lemma ctx_root_black_tail f k : ctx_root_black (f :: k) → ctx_root_black k.
Proof. destruct k; simpl; done. Qed.

Lemma root_black_plug k t :
  k ≠ [] → root_black (plug k t) ↔ ctx_root_black k.
Proof.
  revert t. induction k as [|f k IH]; intros t Hk; [done|].
  destruct k as [|f' k].
  - destruct f as [a [] v r|a [] v l]; simpl; naive_solver.
  - destruct f as [a c v r|a c v l]; apply IH; done.
Qed.

Lemma tree_in_NoDup s t : tree_in s t → NoDup (addrs t).
Proof. by intros (_ & _ & ?). Qed.

Lemma wp_insertFixup_loop fuel k z c v l r s n Q E :
  (length k < fuel)%nat →
  tree_in s (plug k (Node z c v l r)) →
  ctx_root_black k →
  size s = n →
  (∀ s' t', tree_in s' t' →
            addrs t' = addrs (plug k (Node z c v l r)) →
            elements t' = elements (plug k (Node z c v l r)) →
            size s' = n → Q tt s') →
  wp (insertFixup_loop fuel (Some z)) s Q E.
Proof.
  revert k z c v l r s Q E.
  induction fuel as [|fuel IH]; intros k z c v l r s Q E Hf Ht Hk Hsz HQ; [lia|].
  pose proof (tree_in_NoDup _ _ Ht) as Hnd. rewrite addrs_plug in Hnd.
  destruct k as [|[p cp vp u|p cp vp u] k1]; cbn [plug] in Ht.
  { simpl. tsteps. by apply (HQ s _ Ht). }
  all: destruct cp; [|simpl; tsteps; by apply (HQ s _ Ht)].
  all: destruct k1 as [|[g cg vg y|g cg vg y] k2]; [done|..].
  all: destruct y as [|ya [] vy yl yr].
  all: cbn [plug] in Ht; apply ctx_root_black_tail in Hk; distinct_facts Hnd.
  all: cbn [insertFixup_loop]; tsteps.
  all: lazymatch goal with
       | Ht : tree_in ?s ?t, Hsz : size ?s = _
         |- wp (insertFixup_loop _ (Some ?z)) ?s _ _ =>
         let foc := focus_of z t in
         lazymatch foc with
         | (?k, Node _ ?c ?v ?l ?r) =>
           apply (IH k z c v l r s);
           [ simpl in Hf |- *; lia
           | exact Ht
           | try (apply ctx_root_black_tail in Hk); simpl; destruct k2; done
           | exact Hsz
           | let s' := fresh "s" in
             let t' := fresh "t" in
             let Ht' := fresh "Ht" in
             let Ha := fresh "Ha" in
             let He := fresh "He" in
             intros s' t' Ht' Ha He ?; apply (HQ s' t' Ht');
             [ rewrite Ha; solve_inorder | rewrite He; solve_inorder | done ] ]
         end
       end.
Qed.

End InsertFixup.

(** ** The invariant and [Insert] *)

Section Insert.
Context {T : Type} `{Ordered T}.
Implicit Types (s : set T) (h : gmap addr (node T)) (t : tree T) (k : ctx T).
Implicit Types (x y v : T).

Lemma shape_fresh h par t a : shape h par t → h !! a = None → a ∉ addrs t.
Proof.
  intros Hs Ha Hin. destruct (shape_lookup h par t a Hs Hin) as [n Hn]. congruence.
Qed.

Lemma tree_in_fresh s t a : tree_in s t → heap s !! a = None → a ∉ addrs t.
Proof. intros (Hs & _ & _). by apply (shape_fresh _ None). Qed.

Lemma tree_in_size s t : tree_in s t → (length (addrs t) ≤ base.size (heap s))%nat.
Proof.
  intros (Hs & _ & Hnd).
  rewrite <- (size_dom (D := gset addr)), <- (size_list_to_set (C := gset addr)) by done.
  apply subseteq_size. intros a Ha%elem_of_list_to_set.
  apply elem_of_dom. by eapply shape_lookup.
Qed.

Lemma tree_in_height s t : tree_in s t → (height t < fuel_of s)%nat.
Proof.
  intros Ht%tree_in_size. pose proof (height_le_addrs t). unfold fuel_of. lia.
Qed.

Lemma tree_in_depth s k t : tree_in s (plug k t) → (length k < fuel_of s)%nat.
Proof.
  intros Ht%tree_in_size. rewrite addrs_plug, !length_app in Ht.
  pose proof (length_ctx_addrs k). unfold fuel_of. lia.
Qed.

Lemma locate_dir_ok x t k :
  Forall (frame_dir_ok x) k → Forall (frame_dir_ok x) (locate x t k).1.
Proof.
  revert k. induction t as [|a c v l IHl r IHr]; intros k Hk; simpl; [done|].
  destruct (less x v) eqn:Hxv; [apply IHl; by constructor|].
  destruct (less v x) eqn:Hvx; [apply IHr; by constructor | done].
Qed.

(** Allocating the node and hanging it below the last node of the path. *)
Lemma wp_attach {B} (K : ptr → M T B) k x s Q E :
  tree_in s (plug k Leaf) →
  Forall (frame_dir_ok x) k →
  (∀ s' a, tree_in s' (plug k (Node a red x Leaf Leaf)) → size s' = size s →
           wp (K (Some a)) s' Q E) →
  wp (newNode ← alloc {| value := x; color := red; left := None;
                         right := None; parent := ctx_ptr k |};
      (match ctx_ptr k with
       | None => set_root newNode
       | Some _ =>
         pv ← getf value (ctx_ptr k);
         if x <? pv then set_left (ctx_ptr k) newNode
         else set_right (ctx_ptr k) newNode
       end);;
      K newNode) s Q E.
Proof.
  intros Ht Hdir HK. apply wp_bind, wp_alloc. intros a Ha.
  pose proof (tree_in_fresh _ _ _ Ht Ha) as Hfresh.
  destruct Ht as (Hs & Hr & Hnd). destruct s as [h rt sz]. wp_simpl_all.
  rewrite ptr_of_plug in Hr. apply shape_plug in Hs as [Hk _].
  rewrite addrs_plug in Hnd, Hfresh.
  assert (NoDup (addrs (plug k (Node a red x Leaf Leaf)))) as Hnd'.
  { rewrite addrs_plug. simpl in *. apply NoDup_app in Hnd as (? & ? & ?).
    rewrite not_elem_of_app in Hfresh. destruct Hfresh.
    apply NoDup_app. split_and!; [done | | by apply NoDup_cons].
    intros b Hb [->|?]%elem_of_cons; naive_solver. }
  destruct k as [|[p cp vp u|p cp vp u] k]; simpl in Hk, Hfresh;
    destruct_ands; distinct_facts Hnd;
    repeat (rewrite not_elem_of_app in Hfresh || rewrite not_elem_of_cons in Hfresh);
    destruct_ands;
    try (apply Forall_cons in Hdir as [Hd _]; simpl in Hd);
    wp_steps; rewrite ?Hd; wp_steps; (apply HK; [|done]);
    (split_and!; [| by rewrite ptr_of_plug | done]);
    apply shape_plug; simpl; split_and!; solve_shape.
Qed.

Lemma root_black_ctx k t : root_black (plug k t) → ctx_root_black k.
Proof.
  destruct k as [|f k]; [done|]. by apply root_black_plug.
Qed.

Lemma wp_insertFixup k z c v l r s n Q E :
  tree_in s (plug k (Node z c v l r)) →
  ctx_root_black k →
  size s = n →
  (∀ s' t', tree_in s' t' → root_black t' →
            addrs t' = addrs (plug k (Node z c v l r)) →
            elements t' = elements (plug k (Node z c v l r)) →
            size s' = n → Q tt s') →
  wp (insertFixup (Some z)) s Q E.
Proof.
  intros Ht Hk Hsz HQ. unfold insertFixup. wp_steps.
  eapply wp_insertFixup_loop; [by eapply tree_in_depth | done..|].
  intros s' t' Ht' Ha He Hsz'. wp_steps.
  destruct Ht' as (Hs' & Hr' & Hnd'). rewrite Hr'.
  destruct t' as [|r0 c0 v0 l0 r0'].
  { rewrite addrs_plug in Ha. apply (f_equal length) in Ha. simpl in Ha.
    rewrite !length_app in Ha. simpl in Ha. lia. }
  simpl. apply (wp_set_color_tree s' [] r0 c0 v0 l0 r0' black); [done|].
  intros s'' Ht'' Hsz''. apply (HQ s'' _ Ht''); [done| | |congruence].
  - by rewrite <- Ha.
  - by rewrite <- He.
Qed.

Theorem wp_Insert x s t Q E :
  inv s t →
  (∀ s' t', inv s' t' →
            (∀ y, y ∈ elements t' ↔ y = x ∨ y ∈ elements t) →
            (mem x t = true → s' = s) →
            (mem x t = false → size s' = size s + 1) →
            Q tt s') →
  wp (Insert x) s Q E.
Proof.
  intros Hinv HQ. pose proof Hinv as (Ht & Hbst & Hrb & Hsz).
  unfold Insert. wp_steps.
  pose proof Ht as (Hs & Hr & Hnd). rewrite Hr.
  eapply (wp_Insert_loop t _ [] x); [done | by apply tree_in_height |].
  pose proof (locate_plug x t []) as Hplug.
  pose proof (locate_mem x t []) as Hmem.
  pose proof (locate_dir_ok x t [] (Forall_nil_2 _)) as Hdir.
  pose proof (locate_bounds x t [] Hbst) as Hbounds.
  destruct (locate x t []) as [k [|z c v l r]]; simpl in *.
  - (* [x] is absent: a new node *)
    subst t. apply wp_attach; [done..|]. intros s1 a Ht1 Hsz1.
    wp_steps. eapply wp_insertFixup; [done | by eapply root_black_ctx | done |].
    intros s2 t2 Ht2 Hrb2 Ha2 He2 Hsz2. wp_steps.
    destruct s2 as [h2 r2 sz2]. wp_simpl_all. subst sz2.
    destruct Hbounds as [Hbl Hbr];
      [by intros ? ? ? ?%elem_of_nil | by intros ? ? ? ?%elem_of_nil
      |by intros ? ?%elem_of_nil | by intros ? ?%elem_of_nil | done |].
    rewrite elements_plug in He2. simpl in He2.
    unfold bst in Hbst. rewrite elements_plug in Hbst, Hsz. simpl in Hbst, Hsz.
    apply HQ with (t' := t2).
    + split_and!; [done | | done |].
      * unfold bst. rewrite He2. by apply sorted_insert_middle.
      * simpl. rewrite He2. rewrite !length_app in *. simpl in *. lia.
    + intros y. rewrite He2, elements_plug. simpl.
      rewrite !elem_of_app, elem_of_cons. naive_solver.
    + intros Hm. congruence.
    + intros _. simpl. lia.
  - (* [x] is there already *)
    wp_steps. apply HQ with (t' := t); [done | | done | intros; congruence].
    intros y. split; [by right|]. intros [->|?]; [|done].
    apply mem_spec; done.
Qed.

End Insert.

(** ** The queries *)

Section Queries.
Context {T : Type} `{Ordered T}.
Implicit Types (s : set T) (h : gmap addr (node T)) (t : tree T) (k : ctx T).
Implicit Types (x v : T).

(** *** [minNode] and [maxNode] *)

Lemma descend_left_spec t k :
  t ≠ Leaf →
  ∃ kl y cy vy ry,
    descend_left t k = (kl ++ k, Node y cy vy Leaf ry)
    ∧ Forall is_FL kl
    ∧ plug kl (Node y cy vy Leaf ry) = t.
Proof.
  revert k. induction t as [|a c v l IHl r _]; intros k Ht; [done|].
  destruct l as [|la lc lv ll lr]; simpl.
  - by exists [], a, c, v, r.
  - destruct (IHl (FL a c v r :: k)) as (kl & y & cy & vy & ry & Hd & Hfl & Hp);
      [done|].
    exists (kl ++ [FL a c v r]), y, cy, vy, ry. split_and!.
    + simpl in Hd. rewrite Hd. by rewrite <- app_assoc.
    + apply Forall_app. split; [done|]. by repeat constructor.
    + clear Hd. revert Hp. generalize (Node y cy vy Leaf ry).
      generalize (Node la lc lv ll lr). intros t1 t2 <-.
      clear. revert t2. induction kl as [|[]]; intros; simpl; [done|by rewrite IHkl..].
Qed.

Lemma descend_right_spec t k :
  t ≠ Leaf →
  ∃ kr y cy vy ly,
    descend_right t k = (kr ++ k, Node y cy vy ly Leaf)
    ∧ Forall is_FR kr
    ∧ plug kr (Node y cy vy ly Leaf) = t.
Proof.
  revert k. induction t as [|a c v l _ r IHr]; intros k Ht; [done|].
  destruct r as [|ra rc rv rl rr]; simpl.
  - by exists [], a, c, v, l.
  - destruct (IHr (FR a c v l :: k)) as (kr & y & cy & vy & ly & Hd & Hfr & Hp);
      [done|].
    exists (kr ++ [FR a c v l]), y, cy, vy, ly. split_and!.
    + simpl in Hd. rewrite Hd. by rewrite <- app_assoc.
    + apply Forall_app. split; [done|]. by repeat constructor.
    + clear Hd. revert Hp. generalize (Node y cy vy ly Leaf).
      generalize (Node ra rc rv rl rr). intros t1 t2 <-.
      clear. revert t2. induction kr as [|[]]; intros; simpl; [done|by rewrite IHkr..].
Qed.

Lemma plug_app k1 k2 t : plug (k1 ++ k2) t = plug k2 (plug k1 t).
Proof.
  revert t. induction k1 as [|[]]; intros; simpl; [done|by rewrite IHk1..].
Qed.

Lemma elements_l_FL (kl : ctx T) : Forall is_FL kl → elements_l kl = [].
Proof. induction 1 as [|[] ? ? ? IH]; simpl; done. Qed.

Lemma elements_r_FR (kr : ctx T) : Forall is_FR kr → elements_r kr = [].
Proof. induction 1 as [|[] ? ? ? IH]; simpl; done. Qed.

Lemma wp_minNode t fuel k s Q E :
  shape (heap s) (ctx_ptr k) t → t ≠ Leaf → (height t ≤ fuel)%nat →
  Q (ptr_of (descend_left t k).2) s →
  wp (minNode fuel (ptr_of t)) s Q E.
Proof.
  revert fuel k. induction t as [|a c v l IHl r _]; intros fuel k Hs Ht Hf HQ;
    [done|].
  destruct fuel as [|fuel]; [simpl in Hf; lia|].
  simpl in Hs. destruct Hs as (Ha & Hl & Hr). cbn [minNode ptr_of].
  wp_steps. destruct l as [|la lc lv ll lr]; wp_simpl.
  - by wp_steps.
  - apply (IHl fuel (FL a c v r :: k)); [done | done | | done].
    simpl in Hf |- *. lia.
Qed.

Lemma wp_maxNode t fuel k s Q E :
  shape (heap s) (ctx_ptr k) t → t ≠ Leaf → (height t ≤ fuel)%nat →
  Q (ptr_of (descend_right t k).2) s →
  wp (maxNode fuel (ptr_of t)) s Q E.
Proof.
  revert fuel k. induction t as [|a c v l _ r IHr]; intros fuel k Hs Ht Hf HQ;
    [done|].
  destruct fuel as [|fuel]; [simpl in Hf; lia|].
  simpl in Hs. destruct Hs as (Ha & Hl & Hr). cbn [maxNode ptr_of].
  wp_steps. destruct r as [|ra rc rv rl rr]; wp_simpl.
  - by wp_steps.
  - apply (IHr fuel (FR a c v l :: k)); [done | done | | done].
    simpl in Hf |- *. lia.
Qed.

(** *** [Min] and [Max] *)

Lemma wp_Min s t Q E :
  tree_in s t →
  match elements t with
  | [] => Q (zero, false) s
  | m :: _ => Q (m, true) s
  end →
  wp Min s Q E.
Proof.
  intros Ht HQ. pose proof Ht as (Hs & Hr & Hnd). unfold Min. wp_steps.
  rewrite Hr. destruct t as [|a c v l r]; wp_simpl; [by wp_steps|].
  wp_steps. change (Some a) with (ptr_of (Node a c v l r)).
  destruct (descend_left_spec (Node a c v l r) []) as
    (kl & y & cy & vy & ry & Hd & Hfl & Hp); [done|].
  eapply (wp_minNode _ _ []); [done | done | |].
  { apply tree_in_height in Ht. lia. }
  rewrite Hd. wp_simpl. rewrite app_nil_r in Hd.
  rewrite <- Hp in Ht, HQ. rewrite elements_plug, elements_l_FL in HQ by done.
  simpl in HQ. cbn [fst snd]. tsteps. done.
Qed.

Lemma wp_Max s t Q E :
  tree_in s t →
  match last (elements t) with
  | None => Q (zero, false) s
  | Some m => Q (m, true) s
  end →
  wp Max s Q E.
Proof.
  intros Ht HQ. pose proof Ht as (Hs & Hr & Hnd). unfold Max. wp_steps.
  rewrite Hr. destruct t as [|a c v l r]; wp_simpl; [by wp_steps|].
  wp_steps. change (Some a) with (ptr_of (Node a c v l r)).
  destruct (descend_right_spec (Node a c v l r) []) as
    (kr & y & cy & vy & ly & Hd & Hfr & Hp); [done|].
  eapply (wp_maxNode _ _ []); [done | done | |].
  { apply tree_in_height in Ht. lia. }
  rewrite Hd. wp_simpl. rewrite app_nil_r in Hd.
  rewrite <- Hp in Ht, HQ. rewrite elements_plug, elements_r_FR in HQ by done.
  simpl in HQ. rewrite app_nil_r, app_assoc, last_snoc in HQ.
  cbn [fst snd]. tsteps. done.
Qed.

(** *** [Contains] *)

Lemma wp_Contains x s t Q E :
  tree_in s t → Q (mem x t) s → wp (Contains x) s Q E.
Proof.
  intros Ht HQ. pose proof Ht as (Hs & Hr & Hnd). unfold Contains. wp_steps.
  rewrite Hr. eapply wp_Contains_loop; [done | by apply tree_in_height | done].
Qed.

(** *** [All] *)

Lemma All_loop_tree t fuel par stack out s :
  shape (heap s) par t →
  All_loop (2 * length (addrs t) + fuel) (λ _, true) stack (ptr_of t) out s
  = All_loop fuel (λ _, true) stack None (out ++ elements t) s.
Proof.
  revert fuel par stack out.
  induction t as [|a c v l IHl r IHr]; intros fuel par stack out Hs.
  { simpl. by rewrite app_nil_r. }
  simpl in Hs. destruct Hs as (Ha & Hl & Hr).
  cbn [addrs elements ptr_of]. rewrite length_app. cbn [length].
  replace (2 * (length (addrs l) + S (length (addrs r))) + fuel)%nat
    with (S (2 * length (addrs l) + S (2 * length (addrs r) + fuel)))%nat by lia.
  cbn [All_loop]. unfold bind at 1, getf at 1, bind at 1, load. rewrite Ha.
  unfold ret at 1. cbn [left].
  erewrite IHl by done. cbn [All_loop].
  unfold bind at 1, getf at 1, bind at 1, load. rewrite Ha. unfold ret at 1.
  cbn [value]. unfold bind at 1, getf at 1, bind at 1, load. rewrite Ha.
  unfold ret at 1. cbn [right].
  erewrite IHr by done. by rewrite <- !app_assoc.
Qed.

Lemma wp_All s t Q E :
  tree_in s t → Q (elements t) s → wp All s Q E.
Proof.
  intros Ht HQ. pose proof Ht as (Hs & Hr & Hnd).
  unfold All, All_with. wp_steps. rewrite Hr.
  pose proof (tree_in_size _ _ Ht) as Hsize.
  unfold fuel_of.
  replace (2 * S (base.size (heap s)))%nat
    with (2 * length (addrs t) + S (S (2 * (base.size (heap s) - length (addrs t)))))%nat
    by lia.
  unfold wp. erewrite All_loop_tree by done. done.
Qed.

End Queries.

(** ** Unlinking a node: [rbTransplant] *)

Section Transplant.
Context {T : Type}.
Implicit Types (s : set T) (h : gmap addr (node T)) (t : tree T) (k : ctx T).

Lemma NoDup_plug_drop k a c v l r t' :
  sublist (addrs t') (addrs (Node a c v l r)) →
  NoDup (addrs (plug k (Node a c v l r))) → NoDup (addrs (plug k t')).
Proof.
  intros Hsub. rewrite !addrs_plug. intros Hnd. eapply sublist_NoDup; [done|].
  apply sublist_app; [done|]. by apply sublist_app.
Qed.

(** A node without a left child is replaced by its right child. *)
Lemma wp_rbTransplant_right s k u c v R Q E :
  tree_in s (plug k (Node u c v Leaf R)) →
  (∀ s', tree_in s' (plug k R) → size s' = size s →
         heap s' !! u = Some (mkNode v c None (ptr_of R) (ctx_ptr k)) →
         u ∉ addrs (plug k R) →
         Q tt s') →
  wp (rbTransplant (Some u) (ptr_of R)) s Q E.
Proof.
  intros (Hs & Hr & Hnd) HQ. destruct s as [h rt sz]. wp_simpl_all.
  assert (NoDup (addrs (plug k R))) as Hnd'.
  { revert Hnd. apply NoDup_plug_drop. simpl. by constructor. }
  assert (u ∉ addrs (plug k R)) as Hu.
  { rewrite addrs_plug in Hnd |- *. distinct_facts Hnd.
    repeat (rewrite not_elem_of_app || rewrite not_elem_of_cons).
    split_and!; try done; intros ?; naive_solver. }
  apply shape_plug in Hs as [Hk Hs].
  rewrite addrs_plug in Hnd. rewrite ptr_of_plug in Hr.
  destruct R as [|b cb vb βl βr];
    destruct k as [|[p cp vp w|p cp vp w] k];
    simpl in Hs, Hk; destruct_ands; distinct_facts Hnd; subst rt;
    unfold rbTransplant; wp_steps; (apply HQ; [|done|hlookup|done]);
    (split_and!; [| by rewrite ptr_of_plug | done]);
    apply shape_plug; simpl; split_and!; solve_shape.
Qed.

(** A node without a right child is replaced by its left child. *)
Lemma wp_rbTransplant_left s k u c v L Q E :
  tree_in s (plug k (Node u c v L Leaf)) →
  (∀ s', tree_in s' (plug k L) → size s' = size s → Q tt s') →
  wp (rbTransplant (Some u) (ptr_of L)) s Q E.
Proof.
  intros (Hs & Hr & Hnd) HQ. destruct s as [h rt sz]. wp_simpl_all.
  assert (NoDup (addrs (plug k L))) as Hnd'.
  { revert Hnd. apply NoDup_plug_drop. simpl. apply sublist_inserts_r. done. }
  apply shape_plug in Hs as [Hk Hs].
  rewrite addrs_plug in Hnd. rewrite ptr_of_plug in Hr.
  destruct L as [|b cb vb βl βr];
    destruct k as [|[p cp vp w|p cp vp w] k];
    simpl in Hs, Hk; destruct_ands; distinct_facts Hnd; subst rt;
    unfold rbTransplant; wp_steps; (apply HQ; [|done]);
    (split_and!; [| by rewrite ptr_of_plug | done]);
    apply shape_plug; simpl; split_and!; solve_shape.
Qed.

End Transplant.

(** ** [deleteFixup] *)

Section DeleteFixup.
Context {T : Type} `{Ordered T}.
Implicit Types (s : set T) (h : gmap addr (node T)) (t : tree T) (k : ctx T).

Lemma root_of_elem k a b :
  root_of k (Some a) = Some b → b = a ∨ b ∈ addrs_l k ∨ b ∈ addrs_r k.
Proof.
  revert a. induction k as [|[p c v r|p c v l] k IH]; intros a; simpl.
  - intros [= ->]. by left.
  - rewrite elem_of_cons, elem_of_app. intros [->|[?|?]]%IH; tauto.
  - rewrite !elem_of_app, list_elem_of_singleton. intros [->|[?|?]]%IH; tauto.
Qed.

Lemma root_of_Some k a : ∃ b, root_of k (Some a) = Some b.
Proof. revert a. induction k as [|f k IH]; intros a; simpl; eauto. Qed.

Lemma tree_in_not_root s f k x c v l r :
  tree_in s (plug (f :: k) (Node x c v l r)) →
  ptr_eqb (Some x) (root s) = false.
Proof.
  intros (_ & Hr & Hnd). rewrite Hr, ptr_of_plug. simpl.
  destruct (root_of_Some k (frame_addr f)) as [b Hb]. rewrite Hb.
  apply ptr_eqb_ne. intros <-. apply root_of_elem in Hb.
  rewrite addrs_plug in Hnd.
  destruct f as [p cp vp w|p cp vp w]; simpl in Hb; distinct_facts Hnd;
    destruct Hb as [->|[?|?]]; done.
Qed.

Lemma plug_is_node k a c v l r :
  ∃ a' c' v' l' r', plug k (Node a c v l r) = Node a' c' v' l' r'.
Proof.
  revert a c v l r. induction k as [|[] k IH]; intros; simpl;
    [by eauto 10 | apply IH..].
Qed.

Lemma root_black_plug_node k a c v l r :
  ctx_root_black (FL a c v r :: k) → root_black (plug k (Node a c v l r)).
Proof.
  destruct k as [|f k]; [simpl; by intros ->|].
  intros Hk. apply (root_black_plug (f :: k)); done.
Qed.

End DeleteFixup.

Ltac solve_crb :=
  try assumption; simpl;
  repeat match goal with
         | |- context [match ?k with [] => _ | _ :: _ => _ end] => destruct k
         end;
  simpl in *; done.

(** Leaving a loop with the node [a] in hand. *)
Ltac exit_at HQ a :=
  lazymatch goal with
  | Ht : tree_in ?s ?t |- _ =>
    let foc := focus_of a t in
    lazymatch foc with
    | (?k, Node _ ?c ?v ?l ?r) =>
      apply (HQ s k a c v l r Ht);
      [ solve_crb | solve_inorder | solve_inorder | assumption ]
    end
  end.

Ltac tstep_del :=
  first
    [ tstep
    | lazymatch goal with
      | |- wp (is_black_or_nil _) _ _ _ => unfold is_black_or_nil; wp_simpl
      | |- wp get_root _ _ _ => apply wp_get_root; wp_simpl
      | Ht : tree_in ?s ?t |- wp (if ptr_eqb (Some ?x) (root ?s) then _ else _) ?s _ _ =>
        let foc := focus_of x t in
        lazymatch foc with
        | (?f :: ?k, Node _ ?c ?v ?l ?r) =>
          rewrite (tree_in_not_root s f k x c v l r Ht); wp_simpl
        end
      end ].

(** What is left of an iteration of [deleteFixup]: a nil sibling (a panic),
    the next iteration, or the return to the root. *)
Ltac del_finish IH HQ HE Hf :=
  lazymatch goal with
  | |- wp (getf _ None) _ _ _ =>
    apply wp_getf_nil;
    lazymatch goal with
    | Ht : tree_in ?s ?t |- _ =>
      apply (HE s _ Ht);
      [ apply root_black_plug_node; solve_crb
      | solve_inorder | solve_inorder | assumption ]
    end
  | Ht : tree_in ?s ?t, Hsz : size ?s = _
    |- wp (deleteFixup_loop _ (Some ?a)) ?s _ _ =>
    let foc := focus_of a t in
    lazymatch foc with
    | (?k, Node _ ?c ?v ?l ?r) =>
      first
        [ apply (IH k a c v l r s);
          [ simpl in Hf |- *; lia
          | exact Ht
          | solve_crb
          | exact Hsz
          | let Ha := fresh "Ha" in
            let He := fresh "He" in
            intros ? ? ? ? ? ? ? ? ? Ha He ?; eapply HQ;
            [ eassumption | assumption
            | rewrite Ha; solve_inorder | rewrite He; solve_inorder | done ]
          | let Ha := fresh "Ha" in
            let He := fresh "He" in
            intros ? ? ? ? Ha He ?; eapply HE;
            [ eassumption | assumption
            | rewrite Ha; solve_inorder | rewrite He; solve_inorder | done ] ]
        | cbn [deleteFixup_loop]; repeat tstep_del; exit_at HQ a ]
    end
  | Ht : tree_in ?s (plug ?k (Node ?a ?c ?v ?l ?r)), Hsz : size ?s = _
    |- wp (deleteFixup_loop _ (root ?s)) ?s _ _ =>
    cbn [deleteFixup_loop]; apply wp_bind, wp_get_root;
    rewrite ptr_eqb_refl; apply wp_ret;
    let Heq := fresh "Heq" in
    let Hr := fresh "Hr" in
    destruct (plug_is_node k a c v l r) as (? & ? & ? & ? & ? & Heq);
    pose proof Ht as (_ & Hr & _); rewrite Hr, Heq; cbn [ptr_of];
    eapply (HQ s []);
    [ rewrite <- Heq; exact Ht | exact I
    | cbn [plug]; rewrite <- Heq; solve_inorder
    | cbn [plug]; rewrite <- Heq; solve_inorder
    | exact Hsz ]
  end.

Section DeleteFixupLoop.
Context {T : Type} `{Ordered T}.
Implicit Types (s : set T) (h : gmap addr (node T)) (t : tree T) (k : ctx T).

Lemma wp_deleteFixup_loop fuel k x c v l r s n Q E :
  (length k < fuel)%nat →
  tree_in s (plug k (Node x c v l r)) →
  ctx_root_black k →
  size s = n →
  (∀ s' k' a c' v' l' r',
     tree_in s' (plug k' (Node a c' v' l' r')) →
     ctx_root_black k' →
     addrs (plug k' (Node a c' v' l' r')) = addrs (plug k (Node x c v l r)) →
     elements (plug k' (Node a c' v' l' r')) = elements (plug k (Node x c v l r)) →
     size s' = n → Q (Some a) s') →
  (∀ s' t',
     tree_in s' t' → root_black t' →
     addrs t' = addrs (plug k (Node x c v l r)) →
     elements t' = elements (plug k (Node x c v l r)) →
     size s' = n → E s') →
  wp (deleteFixup_loop fuel (Some x)) s Q E.
Proof.
  revert k x c v l r s Q E.
  induction fuel as [|fuel IH]; intros k x c v l r s Q E Hf Ht Hk Hsz HQ HE; [lia|].
  pose proof (tree_in_NoDup _ _ Ht) as Hnd. rewrite addrs_plug in Hnd.
  destruct k as [|[p cp vp w|p cp vp w] k1]; cbn [plug] in Ht.
  { cbn [deleteFixup_loop]. apply wp_bind, wp_get_root.
    destruct Ht as (Hs & Hr & Hnd'). rewrite Hr. simpl. rewrite ptr_eqb_refl.
    apply wp_ret. apply (HQ s [] x c v l r); done. }
  all: cbn [deleteFixup_loop]; repeat tstep_del.
  all: destruct c; [wp_simpl; repeat tstep_del; exit_at HQ x|].
  all: pose proof (ctx_root_black_tail _ _ Hk) as Hk1.
  all: destruct fuel as [|fuel']; [simpl in Hf; lia|].
  - (* [x] is a left child, the sibling [w] is on the right *)
    destruct w as [|wa [] wv wl wr];
      [ | destruct wl as [|wla wlc wlv [|? [] ? ? ?] [|? [] ? ? ?]]
        | destruct wl as [|? [] ? ? ?], wr as [|? [] ? ? ?] ];
      distinct_facts Hnd; repeat tstep_del; del_finish IH HQ HE Hf.
  - (* [x] is a right child, the sibling [w] is on the left *)
    destruct w as [|wa [] wv wl wr];
      [ | destruct wr as [|wra wrc wrv [|? [] ? ? ?] [|? [] ? ? ?]]
        | destruct wl as [|? [] ? ? ?], wr as [|? [] ? ? ?] ];
      distinct_facts Hnd; repeat tstep_del; del_finish IH HQ HE Hf.
Qed.

End DeleteFixupLoop.

(** ** [deleteNode] and [Remove] *)

(** Heap-level execution up to the decrement of [size]. *)
Ltac wp_steps_to_size :=
  repeat lazymatch goal with
         | |- wp (bind get_size _) _ _ _ => fail
         | _ => wp_step
         end;
  apply wp_bind, wp_get_size; apply wp_bind, wp_set_size; wp_simpl.

Ltac prove_tree_in :=
  split_and!;
  [ first [ apply shape_plug | apply (shape_plug _ []) ];
    simpl; split_and!; solve_shape
  | rewrite ?ptr_of_plug; done
  | rewrite ?addrs_plug; prove_distinct ].

Section DeleteNode.
Context {T : Type} `{Ordered T}.
Implicit Types (s : set T) (h : gmap addr (node T)) (t : tree T) (k : ctx T).

Lemma tree_in_with_size s t n : tree_in s t → tree_in (with_size n s) t.
Proof. done. Qed.

Lemma tree_in_shape_sub s k t : tree_in s (plug k t) → shape (heap s) (ctx_ptr k) t.
Proof. intros (Hs & _ & _). by apply shape_plug in Hs as [_ Hs]. Qed.

Lemma tree_in_height_sub s k t : tree_in s (plug k t) → (height t < fuel_of s)%nat.
Proof.
  intros Ht%tree_in_size. rewrite addrs_plug, !length_app in Ht.
  pose proof (height_le_addrs t). unfold fuel_of. lia.
Qed.

Lemma root_black_frame k a c v l r f :
  root_black (plug k (Node a c v l r)) → frame_color f = c →
  ctx_root_black (f :: k).
Proof.
  destruct k as [|f' k]; simpl.
  - intros Hc ->. by destruct c.
  - intros Hrb _. by apply (root_black_plug (f' :: k)) in Hrb.
Qed.

Lemma root_black_recolor k a c v l r a' v' l' r' :
  root_black (plug k (Node a c v l r)) → root_black (plug k (Node a' c v' l' r')).
Proof.
  intros Hrb. apply root_black_plug_node.
  by eapply root_black_frame.
Qed.

Lemma root_black_drop k a c v l r t' :
  root_black (plug k (Node a c v l r)) → t' = Leaf ∨ c = red →
  root_black (plug k t').
Proof.
  destruct k as [|f k].
  - simpl. intros Hc [->| ->]; done.
  - intros Hrb _. apply (root_black_plug (f :: k)); [done|].
    by apply (root_black_plug (f :: k)) in Hrb.
Qed.

Lemma ctx_root_black_app k1 f k2 :
  ctx_root_black (k1 ++ f :: k2) ↔ ctx_root_black (f :: k2).
Proof.
  induction k1 as [|f1 k1 IH]; [done|].
  rewrite <- IH. simpl. by destruct (k1 ++ f :: k2) eqn:E; [destruct k1|].
Qed.

Lemma wp_deleteFixup k x c v l r s n Q E :
  tree_in s (plug k (Node x c v l r)) →
  ctx_root_black k →
  size s = n →
  (∀ s' t', tree_in s' t' → root_black t' →
            elements t' = elements (plug k (Node x c v l r)) →
            size s' = n → Q tt s') →
  (∀ s' t', tree_in s' t' → root_black t' →
            elements t' = elements (plug k (Node x c v l r)) →
            size s' = n → E s') →
  wp (deleteFixup (Some x)) s Q E.
Proof.
  intros Ht Hk Hsz HQ HE. unfold deleteFixup. wp_steps.
  eapply wp_deleteFixup_loop; [by eapply tree_in_depth | done..| |].
  - intros s' k' a c' v' l' r' Ht' Hk' Ha He Hsz'.
    apply (wp_set_color_tree s' k' a c' v' l' r' black); [done|].
    intros s'' Ht'' Hsz''. apply (HQ s'' _ Ht''); [| |congruence].
    + apply root_black_plug_node. clear -Hk'. destruct k'; simpl in *; done.
    + rewrite <- He. solve_inorder.
  - intros s' t' Ht' Hrb' Ha He Hsz'. by apply (HE s' t').
Qed.

Lemma plug_cons_is_node f k t :
  ∃ a c v l r, plug (f :: k) t = Node a c v l r.
Proof. destruct f; simpl; apply plug_is_node. Qed.

Lemma addrs_l_app k1 k2 : addrs_l (k1 ++ k2) = addrs_l k2 ++ addrs_l k1.
Proof.
  induction k1 as [|[] k1 IH]; simpl; [by rewrite app_nil_r|done|].
  by rewrite IH, <- !app_assoc.
Qed.

Lemma addrs_r_app k1 k2 : addrs_r (k1 ++ k2) = addrs_r k1 ++ addrs_r k2.
Proof.
  induction k1 as [|[] k1 IH]; simpl; [done| |done].
  by rewrite IH, <- !app_assoc.
Qed.

(** The end of [deleteNode]: [size] has been decremented and the fix-up
    runs when a black node was removed and something took its place. *)
Lemma wp_delete_finish kx X oc s1 n Q E :
  tree_in s1 (plug kx X) →
  ctx_root_black kx →
  (X = Leaf ∨ oc = red → root_black (plug kx X)) →
  size s1 = n →
  (∀ s' t', tree_in s' t' → root_black t' →
            elements t' = elements (plug kx X) → size s' = n - 1 → Q tt s') →
  (∀ s' t', tree_in s' t' → root_black t' →
            elements t' = elements (plug kx X) → size s' = n - 1 → E s') →
  wp (match ptr_of X with
      | Some x =>
        match oc with
        | red => ret tt
        | black => deleteFixup (Some x)
        end
      | None => ret tt
      end) {| heap := heap s1; root := root s1; size := size s1 - 1 |} Q E.
Proof.
  intros Ht Hk Hrb Hsz HQ HE.
  assert (tree_in {| heap := heap s1; root := root s1; size := size s1 - 1 |}
            (plug kx X)) as Ht' by done.
  destruct X as [|x cx vx xl xr]; [|destruct oc]; simpl.
  - apply wp_ret. apply (HQ _ _ Ht'); [by apply Hrb; left | done | simpl; lia].
  - apply wp_ret. apply (HQ _ _ Ht'); [by apply Hrb; right | done | simpl; lia].
  - eapply wp_deleteFixup; [exact Ht' | done | simpl; rewrite Hsz; reflexivity |..].
    + intros s' t' ? ? ? ?. by apply (HQ s' t').
    + intros s' t' ? ? ? ?. by apply (HE s' t').
Qed.

Lemma wp_deleteNode k z c v L R s n Q E :
  tree_in s (plug k (Node z c v L R)) →
  root_black (plug k (Node z c v L R)) →
  size s = n →
  (∀ s' t', tree_in s' t' → root_black t' →
            elements t' = elements_l k ++ elements L ++ elements R ++ elements_r k →
            size s' = n - 1 → Q tt s') →
  (∀ s' t', tree_in s' t' → root_black t' →
            elements t' = elements_l k ++ elements L ++ elements R ++ elements_r k →
            size s' = n - 1 → E s') →
  wp (deleteNode (Some z)) s Q E.
Proof.
  intros Ht Hrb Hsz HQ HE. unfold deleteNode.
  pose proof (root_black_ctx _ _ Hrb) as Hk.
  destruct L as [|l0 cl vl ll lr]; [|destruct R as [|r0 cr vr rl rr]].
  - (* no left child *)
    tsteps. apply (wp_rbTransplant_right s k z c v R); [done|].
    intros s1 Ht1 Hsz1 _ _. rewrite Hsz in Hsz1. clear Ht Hsz s.
    wp_steps.
    apply (wp_delete_finish k R c s1 n); [done | done | | done |..].
    + intros Hx. eapply root_black_drop; [exact Hrb | exact Hx].
    + intros s' t' ? ? He ?. apply (HQ s' t'); [done..| |done].
      rewrite He, elements_plug. done.
    + intros s' t' ? ? He ?. apply (HE s' t'); [done..| |done].
      rewrite He, elements_plug. done.
  - (* a left child only *)
    tsteps. apply (wp_rbTransplant_left s k z c v (Node l0 cl vl ll lr)); [done|].
    intros s1 Ht1 Hsz1. rewrite Hsz in Hsz1. clear Ht Hsz s.
    wp_steps.
    apply (wp_delete_finish k (Node l0 cl vl ll lr) c s1 n); [done | done | | done |..].
    + intros Hx. eapply root_black_drop; [exact Hrb | exact Hx].
    + intros s' t' ? ? He ?. apply (HQ s' t'); [done..| |done].
      rewrite He, elements_plug. done.
    + intros s' t' ? ? He ?. apply (HE s' t'); [done..| |done].
      rewrite He, elements_plug. done.
  - (* two children: the successor [y] takes the place of [z] *)
    tsteps. apply wp_get_fuel. apply wp_bind.
    destruct (descend_left_spec (Node r0 cr vr rl rr) (FR z c v (Node l0 cl vl ll lr) :: k))
      as (kl & y & cy & vy & ry & Hd & Hfl & Hp); [done|].
    eapply (wp_minNode (Node r0 cr vr rl rr) _ (FR z c v (Node l0 cl vl ll lr) :: k)).
    { by apply (tree_in_shape_sub s (FR z c v (Node l0 cl vl ll lr) :: k)). }
    { done. }
    { apply (tree_in_height_sub s (FR z c v (Node l0 cl vl ll lr) :: k)) in Ht. lia. }
    rewrite Hd. cbn [fst snd ptr_of]. clear Hd.
    assert (ctx_root_black (FR y c vy (Node l0 cl vl ll lr) :: k)) as Hcrb
      by (eapply root_black_frame; [exact Hrb | done]).
    assert (∀ R', root_black (plug k (Node y c vy (Node l0 cl vl ll lr) R'))) as Hrb'
      by (intros; eapply root_black_recolor, Hrb).
    assert (elements (plug (kl ++ FR y c vy (Node l0 cl vl ll lr) :: k) ry)
            = elements_l k ++ elements (Node l0 cl vl ll lr)
              ++ elements (Node r0 cr vr rl rr) ++ elements_r k) as Hel.
    { rewrite <- Hp, plug_app. cbn [plug]. rewrite !elements_plug.
      rewrite (elements_l_FL kl) by done. simpl.
      rewrite ?elements_plug, ?(elements_l_FL kl) by done. simpl.
      repeat (rewrite <- ?app_assoc; simpl). reflexivity. }
    rewrite <- Hp in Ht.
    change (tree_in s (plug (FR z c v (Node l0 cl vl ll lr) :: k)
                         (plug kl (Node y cy vy Leaf ry)))) in Ht.
    rewrite <- plug_app in Ht. clear Hp Hrb.
    destruct kl as [|[yp cyp vyp uyp|? ? ? ?] kl']; [| |by inversion Hfl].
    + (* [y] is the right child of [z] *)
      cbn [app plug] in Ht. do 6 tstep. rewrite ptr_eqb_refl. wp_simpl.
      pose proof Ht as (Hs & Hr & Hnd). destruct s as [h rt sz]. wp_simpl_all.
      apply shape_plug in Hs as [Hks Hs].
      rewrite addrs_plug in Hnd. rewrite ptr_of_plug in Hr.
      destruct ry as [|b cb vb βl βr];
        destruct k as [|[p cp vp w|p cp vp w] k];
        simpl in Hs, Hks; destruct_ands; distinct_facts Hnd; subst rt;
        unfold rbTransplant; wp_steps_to_size.
      all: lazymatch goal with
           | |- wp _ {| heap := ?h'; root := ?r'; size := ?sz' - 1 |} _ _ =>
             lazymatch type of Hel with
             | elements (plug ?KX ?X) = _ =>
               apply (wp_delete_finish KX X cy
                        {| heap := h'; root := r'; size := sz' |} n)
             end
           end.
      all: try done.
      all: try prove_tree_in.
      all: try (intros _; apply Hrb').
      all: try (intros s' t' ? ? He ?; first [apply (HQ s' t') | apply (HE s' t')];
                [done | done | by rewrite He | done]).
    + (* [y] lies deeper: it is unlinked first *)
      pose proof (tree_in_NoDup _ _ Ht) as Hnd.
      rewrite addrs_plug, addrs_l_app, addrs_r_app in Hnd.
      cbn [app] in Ht. do 6 tstep.
      assert (yp ≠ z) as Hne by (distinct_facts Hnd; neq).
      rewrite ptr_eqb_ne by done. wp_simpl. clear Hnd Hne.
      do 3 tstep.
      apply wp_bind.
      apply (wp_rbTransplant_right s
               (FL yp cyp vyp uyp :: kl' ++ FR z c v (Node l0 cl vl ll lr) :: k)
               y cy vy ry); [exact Ht|].
      intros s1 Ht1 Hsz1 Hy1 Hfresh1. rewrite Hsz in Hsz1. clear Ht Hsz s.
      destruct (plug_cons_is_node (FL yp cyp vyp uyp) kl' ry)
        as (r1 & c1 & v1 & rl1 & rr1 & HR').
      remember (FL yp cyp vyp uyp :: kl') as kl2 eqn:Hkl2.
      change (FL yp cyp vyp uyp :: kl' ++ FR z c v (Node l0 cl vl ll lr) :: k)
        with ((FL yp cyp vyp uyp :: kl') ++ FR z c v (Node l0 cl vl ll lr) :: k)
        in Ht1, Hfresh1, Hy1.
      rewrite <- Hkl2 in Ht1, Hfresh1, Hy1.
      rewrite plug_app in Ht1, Hfresh1. cbn [plug] in Ht1, Hfresh1.
      rewrite HR' in Ht1, Hfresh1.
      assert (ctx_ptr (kl2 ++ FR z c v (Node l0 cl vl ll lr) :: k) = Some yp) as Hyp
        by (by subst kl2).
      rewrite Hyp in Hy1. clear Hyp.
      pose proof Ht1 as (Hs & Hr & Hnd).
      assert (NoDup (y :: addrs (plug k (Node z c v (Node l0 cl vl ll lr)
                                           (Node r1 c1 v1 rl1 rr1))))) as Hnd2
        by (by apply NoDup_cons).
      clear Hnd Hfresh1.
      destruct s1 as [h rt sz]. wp_simpl_all.
      apply shape_plug in Hs as [Hks Hs].
      rewrite addrs_plug in Hnd2. rewrite ptr_of_plug in Hr.
      destruct k as [|[p cp vp w|p cp vp w] k];
        simpl in Hs, Hks; destruct_ands; distinct_facts Hnd2; subst rt;
        unfold rbTransplant; wp_steps_to_size.
      all: lazymatch goal with
           | |- wp _ {| heap := ?h'; root := ?r'; size := ?sz' - 1 |} _ _ =>
             lazymatch type of Hel with
             | elements (plug ?KX ?X) = _ =>
               apply (wp_delete_finish KX X cy
                        {| heap := h'; root := r'; size := sz' |} n)
             end
           end.
      all: try done.
      all: try (rewrite plug_app; cbn [plug]; rewrite HR'; prove_tree_in).
      all: try (by apply ctx_root_black_app).
      all: try (intros _; rewrite plug_app; apply Hrb').
      all: try (intros s' t' ? ? He ?; first [apply (HQ s' t') | apply (HE s' t')];
                [done | done | by rewrite He | done]).
Qed.

End DeleteNode.

Section Remove.
Context {T : Type} `{Ordered T}.
Implicit Types (s : set T) (h : gmap addr (node T)) (t : tree T) (k : ctx T).
Implicit Types (x v : T).

Lemma sorted_remove_middle l1 v l2 :
  sorted (l1 ++ v :: l2) →
  sorted (l1 ++ l2) ∧ ∀ y, y ∈ l1 ++ l2 ↔ y ≠ v ∧ y ∈ l1 ++ v :: l2.
Proof.
  intros (Hlr & Hl1 & (Hv & Hl2)%sorted_cons)%sorted_app.
  rewrite Forall_forall in Hv. split.
  - apply sorted_app. split_and!; [|done..].
    intros x1 x2 H1 H2. apply Hlr; [done | by right].
  - intros y. rewrite !elem_of_app, elem_of_cons. split.
    + intros [Hy|Hy]; (split; [intros ->|tauto]).
      * specialize (Hlr v v Hy (list_elem_of_here _ _)).
        by rewrite less_irrefl in Hlr.
      * specialize (Hv v Hy). by rewrite less_irrefl in Hv.
    + intros [? [?|[?|?]]]; tauto.
Qed.

Theorem wp_Remove x s t Q E :
  inv s t →
  (∀ s' t', inv s' t' →
            (∀ y, y ∈ elements t' ↔ y ≠ x ∧ y ∈ elements t) →
            (mem x t = false → s' = s) →
            (mem x t = true → size s' = size s - 1) →
            Q tt s') →
  (∀ s' t', inv s' t' →
            (∀ y, y ∈ elements t' ↔ y ≠ x ∧ y ∈ elements t) →
            mem x t = true →
            size s' = size s - 1 →
            E s') →
  wp (Remove x) s Q E.
Proof.
  intros Hinv HQ HE. pose proof Hinv as (Ht & Hbst & Hrb & Hsz).
  unfold Remove. wp_steps.
  pose proof Ht as (Hs & Hr & Hnd). rewrite Hr.
  eapply (wp_Remove_loop t _ [] x); [done | by apply tree_in_height |].
  pose proof (locate_plug x t []) as Hplug.
  pose proof (locate_mem x t []) as Hmem.
  pose proof (locate_found x t []) as Hfound.
  destruct (locate x t []) as [k [|z c v l r]]; simpl in *.
  - (* [x] is absent *)
    apply HQ with (t' := t); [done | | done | intros; congruence].
    intros y. split; [|tauto]. intros Hy. split; [|done]. intros ->.
    apply mem_spec in Hy; [congruence | done].
  - (* [x] is at [z] *)
    specialize (Hfound _ _ _ _ _ eq_refl). subst v t.
    unfold bst in Hbst. rewrite elements_plug in Hbst, Hsz. simpl in Hbst, Hsz.
    rewrite <- !app_assoc in Hbst. rewrite app_assoc in Hbst. simpl in Hbst.
    apply sorted_remove_middle in Hbst as [Hsorted Helem].
    assert (∀ t', elements t' = elements_l k ++ elements l ++ elements r ++ elements_r k →
                  bst t' ∧ (∀ y, y ∈ elements t' ↔
                               y ≠ x ∧ y ∈ elements (plug k (Node z c x l r)))
                  ∧ Z.of_nat (length (elements t')) = size s - 1) as Hpost.
    { intros t' He. unfold bst. rewrite He, elements_plug. simpl.
      rewrite <- !app_assoc in Hsorted, Helem. simpl in Helem.
      rewrite <- !app_assoc. split_and!;
        [done | intros y; rewrite Helem, <- !app_assoc; by simpl |].
      rewrite Hsz, !length_app. simpl. rewrite ?length_app. simpl. lia. }
    eapply wp_deleteNode; [done | done | reflexivity | |].
    + intros s' t' Ht' Hrb' He Hsz'. destruct (Hpost t' He) as (? & ? & Hlen).
      apply (HQ s' t'); [|done| intros; congruence | done].
      split_and!; [done..|]. lia.
    + intros s' t' Ht' Hrb' He Hsz'. destruct (Hpost t' He) as (? & ? & Hlen).
      apply (HE s' t'); [|done..].
      split_and!; [done..|]. lia.
Qed.

End Remove.

(** ** Sequences of operations and the model of their contents *)

Section Runs.
Context {T : Type} `{Ordered T}.
Implicit Types (s : set T) (t : tree T).
Implicit Types (x y v : T).

Lemma same_spec x y : same x y = true ↔ x = y.
Proof.
  unfold same. rewrite andb_true_iff, !negb_true_iff. split.
  - intros [? ?]. by apply less_total.
  - intros ->. by rewrite less_irrefl.
Qed.

Lemma existsb_same x m : existsb (same x) m = true ↔ x ∈ m.
Proof.
  rewrite existsb_exists. split.
  - intros (y & Hy & ->%same_spec). by apply list_elem_of_In.
  - intros Hx. exists x. split; [by apply list_elem_of_In | by apply same_spec].
Qed.

Lemma model_step_NoDup m o : NoDup m → NoDup (model_step m o).
Proof.
  intros Hm. destruct o as [x|x]; simpl.
  - destruct (existsb (same x) m) eqn:Hx; [done|].
    apply NoDup_cons. split; [|done].
    intros Hin%existsb_same. congruence.
  - apply NoDup_ListNoDup, List.NoDup_filter, NoDup_ListNoDup, Hm.
Qed.

Lemma model_step_insert m x y :
  y ∈ model_step m (OpInsert x) ↔ y = x ∨ y ∈ m.
Proof.
  simpl. destruct (existsb (same x) m) eqn:Hx.
  - apply existsb_same in Hx. split; [by right | by intros [->|?]].
  - by rewrite elem_of_cons.
Qed.

Lemma model_step_remove m x y :
  y ∈ model_step m (OpRemove x) ↔ y ≠ x ∧ y ∈ m.
Proof.
  simpl. rewrite !list_elem_of_In, filter_In, negb_true_iff.
  split.
  - intros [? Hs]. split; [|done]. intros ->.
    by rewrite (proj2 (same_spec x x)) in Hs.
  - intros [Hne ?]. split; [done|].
    destruct (same x y) eqn:Hs; [|done]. apply same_spec in Hs. congruence.
Qed.

(** *** What the methods do on a state that satisfies the invariant *)

Lemma inv_New : inv (New (T := T)) Leaf.
Proof. repeat split; simpl; try done. constructor. constructor. Qed.

Lemma Insert_ok x s t :
  inv s t →
  ∃ s' t', Insert x s = Ok tt s' ∧ inv s' t'
           ∧ (∀ y, y ∈ elements t' ↔ y = x ∨ y ∈ elements t)
           ∧ (mem x t = true → s' = s)
           ∧ (mem x t = false → size s' = size s + 1).
Proof.
  intros Hinv.
  destruct (wp_total (Insert x) s
              (λ _ s', ∃ t', inv s' t'
                 ∧ (∀ y, y ∈ elements t' ↔ y = x ∨ y ∈ elements t)
                 ∧ (mem x t = true → s' = s)
                 ∧ (mem x t = false → size s' = size s + 1)))
    as ([] & s' & Hrun & t' & ?).
  { eapply wp_Insert; [done|]. intros s' t' ? ? ? ?. by exists t'. }
  by exists s', t'.
Qed.

Lemma Remove_ok x s t :
  inv s t →
  ∃ s' t', outcome (Remove x s) = Some s' ∧ inv s' t'
           ∧ (∀ y, y ∈ elements t' ↔ y ≠ x ∧ y ∈ elements t)
           ∧ (mem x t = false → Remove x s = Ok tt s)
           ∧ (mem x t = true → size s' = size s - 1).
Proof.
  intros Hinv.
  assert (wp (Remove x) s
            (λ _ s', ∃ t', inv s' t'
               ∧ (∀ y, y ∈ elements t' ↔ y ≠ x ∧ y ∈ elements t)
               ∧ (mem x t = false → s' = s)
               ∧ (mem x t = true → size s' = size s - 1))
            (λ s', ∃ t', inv s' t'
               ∧ (∀ y, y ∈ elements t' ↔ y ≠ x ∧ y ∈ elements t)
               ∧ mem x t = true
               ∧ size s' = size s - 1)) as Hwp.
  { eapply wp_Remove; [done|..].
    - intros s' t' ? ? ? ?. by exists t'.
    - intros s' t' ? ? ? ?. by exists t'. }
  unfold wp in Hwp. destruct (Remove x s) as [[] s'|s'|] eqn:Hrun; [..|done].
  - destruct Hwp as (t' & ? & ? & Hsame & ?). exists s', t'.
    split_and!; [done..| |done]. intros Hm. by rewrite (Hsame Hm).
  - destruct Hwp as (t' & ? & ? & Hm & ?). exists s', t'.
    split_and!; [done..| |done]. congruence.
Qed.

Lemma Contains_ok x s t : inv s t → Contains x s = Ok (mem x t) s.
Proof.
  intros (Ht & _).
  destruct (wp_total (Contains x) s (λ b s', b = mem x t ∧ s' = s))
    as (b & s' & Hrun & -> & ->); [|done].
  by eapply wp_Contains.
Qed.

Lemma All_ok s t : inv s t → All s = Ok (elements t) s.
Proof.
  intros (Ht & _).
  destruct (wp_total All s (λ l s', l = elements t ∧ s' = s))
    as (b & s' & Hrun & -> & ->); [|done].
  by eapply wp_All.
Qed.

Lemma Min_ok s t :
  inv s t →
  Min s = Ok (match elements t with [] => (zero, false) | m :: _ => (m, true) end) s.
Proof.
  intros (Ht & _).
  destruct (wp_total Min s
              (λ r s', r = match elements t with
                           | [] => (zero, false) | m :: _ => (m, true)
                           end ∧ s' = s))
    as (b & s' & Hrun & -> & ->); [|done].
  eapply wp_Min; [done|]. by destruct (elements t).
Qed.

Lemma Max_ok s t :
  inv s t →
  Max s = Ok (match last (elements t) with
              | None => (zero, false) | Some m => (m, true)
              end) s.
Proof.
  intros (Ht & _).
  destruct (wp_total Max s
              (λ r s', r = match last (elements t) with
                           | None => (zero, false) | Some m => (m, true)
                           end ∧ s' = s))
    as (b & s' & Hrun & -> & ->); [|done].
  eapply wp_Max; [done|]. by destruct (last (elements t)).
Qed.

(** *** Reachable states satisfy the invariant *)

Lemma run_inv ops s0 t0 m0 s :
  inv s0 t0 → (∀ y, y ∈ elements t0 ↔ y ∈ m0) →
  run ops s0 = Ok tt s →
  ∃ t, inv s t ∧ (∀ y, y ∈ elements t ↔ y ∈ fold_left model_step ops m0).
Proof.
  revert s0 t0 m0. induction ops as [|o ops IH]; intros s0 t0 m0 Hinv Hm Hrun.
  { injection Hrun as <-. by exists t0. }
  simpl in Hrun. unfold bind in Hrun.
  destruct o as [x|x]; simpl in Hrun |- *.
  - destruct (Insert_ok x s0 t0 Hinv) as (s1 & t1 & Hstep & Hinv1 & Hel & _).
    rewrite Hstep in Hrun. eapply IH; [done| |done].
    intros y. rewrite Hel, Hm. symmetry. apply model_step_insert.
  - destruct (Remove_ok x s0 t0 Hinv) as (s1 & t1 & Hstep & Hinv1 & Hel & _).
    destruct (Remove x s0) as [[] s1'|s1'|] eqn:Hrem; [|done..].
    injection Hstep as ->. eapply IH; [done| |done].
    intros y. rewrite Hel, Hm. symmetry. apply model_step_remove.
Qed.

Lemma reachable_inv ops s :
  run ops New = Ok tt s →
  ∃ t, inv s t ∧ (∀ y, y ∈ elements t ↔ y ∈ model ops).
Proof.
  intros Hrun. eapply run_inv; [apply inv_New | | done].
  intros y. simpl. done.
Qed.

Lemma model_NoDup ops : NoDup (model ops).
Proof.
  unfold model. generalize (NoDup_nil_2 (A := T)). generalize (@nil T).
  induction ops as [|o ops IH]; intros m Hm; simpl; [done|].
  apply IH. by apply model_step_NoDup.
Qed.

End Runs.

(** ** The properties of the set *)

Section Claims.
Context {T : Type} `{Ordered T}.
Implicit Types (s : set T) (t : tree T) (ops : list (op T)).
Implicit Types (x y v : T).

Lemma sorted_NoDup (l : list T) : sorted l → NoDup l.
Proof.
  induction l as [|x l IH]; [constructor|].
  intros [Hx Hl]%sorted_cons. apply NoDup_cons. split; [|by apply IH].
  intros Hin. rewrite Forall_forall in Hx. specialize (Hx x Hin).
  by rewrite less_irrefl in Hx.
Qed.

Lemma Len_ok s : Len s = Ok (size s) s.
Proof. done. Qed.

(** C3: on a set reached from the empty one, [Insert x] returns; afterwards
    [x] is a member; when [x] was a member already the set is left as it
    was, and otherwise [Len] grows by exactly one. *)
Theorem Insert_member_size ops s x :
  run ops New = Ok tt s →
  ∃ s' b n,
    Insert x s = Ok tt s'
    ∧ Contains x s = Ok b s
    ∧ Len s = Ok n s
    ∧ Contains x s' = Ok true s'
    ∧ (b = true → s' = s)
    ∧ (b = false → Len s' = Ok (n + 1) s').
Proof.
  intros (t & Hinv & _)%reachable_inv.
  destruct (Insert_ok x s t Hinv) as (s' & t' & Hins & Hinv' & Hel & Hsame & Hsz).
  exists s', (mem x t), (size s). split_and!; [done | by apply Contains_ok | done |..].
  - rewrite (Contains_ok x s' t' Hinv'). f_equal.
    apply mem_spec; [apply Hinv'|]. apply Hel. by left.
  - done.
  - intros Hm. rewrite Len_ok. by rewrite (Hsz Hm).
Qed.

(** C4: on a set reached from the empty one, [Remove x] ends, by returning
    or by a panic, in a state where [x] is not a member; when [x] was not a
    member it returns and leaves the set as it was, and otherwise [Len] has
    shrunk by exactly one. *)
Theorem Remove_member_size ops s x :
  run ops New = Ok tt s →
  ∃ s' b n,
    outcome (Remove x s) = Some s'
    ∧ Contains x s = Ok b s
    ∧ Len s = Ok n s
    ∧ Contains x s' = Ok false s'
    ∧ (b = false → Remove x s = Ok tt s)
    ∧ (b = true → Len s' = Ok (n - 1) s').
Proof.
  intros (t & Hinv & _)%reachable_inv.
  destruct (Remove_ok x s t Hinv) as (s' & t' & Hrem & Hinv' & Hel & Hsame & Hsz).
  exists s', (mem x t), (size s). split_and!; [done | by apply Contains_ok | done |..].
  - rewrite (Contains_ok x s' t' Hinv'). f_equal.
    destruct (mem x t') eqn:Hm; [|done].
    apply mem_spec in Hm; [|apply Hinv']. apply Hel in Hm. by destruct Hm.
  - done.
  - intros Hm. rewrite Len_ok. by rewrite (Hsz Hm).
Qed.

(** C5: iterating a set reached from the empty one yields a strictly
    increasing sequence. *)
Theorem All_increasing ops s :
  run ops New = Ok tt s →
  ∃ l, All s = Ok l s ∧ sorted l.
Proof.
  intros (t & Hinv & _)%reachable_inv.
  exists (elements t). split; [by apply All_ok | apply Hinv].
Qed.

(** C6: [Contains x] answers [true] exactly when [x] is among the values
    that [All] yields. *)
Theorem Contains_iff_All ops s x :
  run ops New = Ok tt s →
  ∃ l b, All s = Ok l s ∧ Contains x s = Ok b s ∧ (b = true ↔ x ∈ l).
Proof.
  intros (t & Hinv & _)%reachable_inv.
  exists (elements t), (mem x t).
  split_and!; [by apply All_ok | by apply Contains_ok |].
  apply mem_spec, Hinv.
Qed.

(** C7: a second [Insert x] leaves the state the first one produced, and a
    second [Remove x] leaves the state the first one ended in. *)
Theorem Insert_Remove_idempotent ops s x :
  run ops New = Ok tt s →
  ∃ s1 s2,
    Insert x s = Ok tt s1
    ∧ (Insert x;; Insert x) s = Ok tt s1
    ∧ outcome (Remove x s) = Some s2
    ∧ outcome ((Remove x;; Remove x) s) = Some s2
    ∧ Remove x s2 = Ok tt s2.
Proof.
  intros (t & Hinv & _)%reachable_inv.
  destruct (Insert_ok x s t Hinv) as (s1 & t1 & Hins & Hinv1 & Hel1 & _).
  destruct (Remove_ok x s t Hinv) as (s2 & t2 & Hrem & Hinv2 & Hel2 & _).
  assert (Insert x s1 = Ok tt s1) as Hins2.
  { destruct (Insert_ok x s1 t1 Hinv1) as (s1' & t1' & Hins' & _ & _ & Hsame & _).
    rewrite Hins'. f_equal. apply Hsame.
    apply mem_spec; [apply Hinv1|]. apply Hel1. by left. }
  assert (Remove x s2 = Ok tt s2) as Hrem2.
  { destruct (Remove_ok x s2 t2 Hinv2) as (s2' & t2' & _ & _ & _ & Hsame & _).
    apply Hsame. destruct (mem x t2) eqn:Hm; [|done].
    apply mem_spec in Hm; [|apply Hinv2]. apply Hel2 in Hm. by destruct Hm. }
  exists s1, s2. split_and!; [done | | done | | done].
  - unfold bind. by rewrite Hins.
  - unfold bind. destruct (Remove x s) as [[] ?|?|]; simpl in *; [|done..].
    injection Hrem as ->. by rewrite Hrem2.
Qed.

(** C8: on the empty set [Min] and [Max] answer the zero value and [false];
    otherwise they answer [true] with the least and the greatest of the
    values that [All] yields. *)
Theorem Min_Max_spec ops s :
  run ops New = Ok tt s →
  ∃ l, All s = Ok l s
       ∧ match l with
         | [] => Min s = Ok (zero, false) s ∧ Max s = Ok (zero, false) s
         | _ :: _ =>
           ∃ lo hi,
             Min s = Ok (lo, true) s ∧ Max s = Ok (hi, true) s
             ∧ lo ∈ l ∧ hi ∈ l
             ∧ ∀ y, y ∈ l → (y = lo ∨ less lo y = true)
                            ∧ (y = hi ∨ less y hi = true)
         end.
Proof.
  intros (t & Hinv & _)%reachable_inv.
  exists (elements t). split; [by apply All_ok|].
  pose proof (Min_ok s t Hinv) as Hmin. pose proof (Max_ok s t Hinv) as Hmax.
  destruct Hinv as (_ & Hbst & _). unfold bst in Hbst.
  destruct (elements t) as [|lo l]; [done|].
  destruct (last (lo :: l)) as [hi|] eqn:Hlast.
  2: { by apply last_None in Hlast. }
  exists lo, hi. split_and!; [done | done | by left | |].
  - apply last_Some in Hlast as [l' ->].
    apply elem_of_app. right. by apply list_elem_of_singleton.
  - intros y Hy. split.
    + apply sorted_cons in Hbst as [Hlo _].
      rewrite Forall_forall in Hlo. apply elem_of_cons in Hy as [->|Hy]; auto.
    + apply last_Some in Hlast as [l' Hl']. rewrite Hl' in Hy, Hbst.
      apply sorted_app in Hbst as (Hhi & _ & _).
      apply elem_of_app in Hy as [Hy|Hy%list_elem_of_singleton]; [|by left].
      right. apply Hhi; [done|]. by apply list_elem_of_singleton.
Qed.

(** C9: [Len] is the number of values that [All] yields, which is the number
    of values inserted and not removed since. *)
Theorem Len_counts ops s :
  run ops New = Ok tt s →
  ∃ l, All s = Ok l s
       ∧ Len s = Ok (Z.of_nat (length l)) s
       ∧ l ≡ₚ model ops
       ∧ length l = length (model ops).
Proof.
  intros (t & Hinv & Hm)%reachable_inv.
  exists (elements t). split; [by apply All_ok|].
  assert (elements t ≡ₚ model ops) as Hperm.
  { apply NoDup_Permutation; [|apply model_NoDup|done].
    apply sorted_NoDup, Hinv. }
  split_and!; [|done|by rewrite Hperm].
  rewrite Len_ok. f_equal. apply Hinv.
Qed.

(** C10: [Insert x] and [Remove x] leave the answer of [Contains y] as it
    was for every [y] other than [x]. *)
Theorem Contains_frame ops s x y :
  run ops New = Ok tt s →
  y ≠ x →
  ∃ b s1 s2,
    Contains y s = Ok b s
    ∧ Insert x s = Ok tt s1 ∧ Contains y s1 = Ok b s1
    ∧ outcome (Remove x s) = Some s2 ∧ Contains y s2 = Ok b s2.
Proof.
  intros (t & Hinv & _)%reachable_inv Hne.
  destruct (Insert_ok x s t Hinv) as (s1 & t1 & Hins & Hinv1 & Hel1 & _).
  destruct (Remove_ok x s t Hinv) as (s2 & t2 & Hrem & Hinv2 & Hel2 & _).
  exists (mem y t), s1, s2.
  split_and!; [by apply Contains_ok | done | | done |].
  - rewrite (Contains_ok y s1 t1 Hinv1). f_equal.
    apply eq_true_iff_eq. rewrite !mem_spec by (apply Hinv1 || apply Hinv).
    rewrite Hel1. naive_solver.
  - rewrite (Contains_ok y s2 t2 Hinv2). f_equal.
    apply eq_true_iff_eq. rewrite !mem_spec by (apply Hinv2 || apply Hinv).
    rewrite Hel2. naive_solver.
Qed.

End Claims.

(** ** The red-black conditions *)

Section RedBlack.
Context {T : Type}.
Implicit Types (s : set T) (t : tree T).

(** A state holds at most one tree. *)
Lemma shape_unique h par1 par2 t1 t2 :
  shape h par1 t1 → shape h par2 t2 → ptr_of t1 = ptr_of t2 → t1 = t2.
Proof.
  revert par1 par2 t2. induction t1 as [|a c v l IHl r IHr];
    intros par1 par2 [|a2 c2 v2 l2 r2]; simpl; try done.
  intros (H1 & Hl1 & Hr1) (H2 & Hl2 & Hr2) [= <-].
  rewrite H1 in H2. injection H2 as <- <- El Er _.
  f_equal; [by eapply IHl | by eapply IHr].
Qed.

Lemma tree_in_unique s t1 t2 : tree_in s t1 → tree_in s t2 → t1 = t2.
Proof.
  intros (H1 & R1 & _) (H2 & R2 & _). eapply shape_unique; [done..|congruence].
Qed.

End RedBlack.

(** * Further properties of the code

    ** The red-black conditions on a path *)

(** Taking the red-black facts of the hypotheses apart, and putting those of
    a goal together. *)
Ltac rb_cbn_in H :=
  cbn [ctx_nrr ctx_bal] in H; unfold frame_nrr, frame_bh in H;
  cbn [frame_sibling frame_color color_is_red blacken
       black_height no_red_red is_red negb andb] in H.

Ltac rb_cbn :=
  cbn [ctx_nrr ctx_bal]; unfold frame_nrr, frame_bh;
  cbn [frame_sibling frame_color color_is_red blacken
       black_height no_red_red is_red negb andb].

Ltac rb_split :=
  repeat match goal with
         | H : _ && _ = true |- _ => apply andb_prop in H as [? ?]
         | H : bool_decide _ = true |- _ => apply bool_decide_eq_true in H
         | H : negb _ = true |- _ => apply negb_true_iff in H
         | H : false = true |- _ => discriminate H
         | H : true = true |- _ => clear H
         | H : Some _ = Some _ |- _ => injection H as H
         | H : None = Some _ |- _ => discriminate H
         | H : context [match black_height ?t with _ => _ end] |- _ =>
           let E := fresh "Hbh" in destruct (black_height t) eqn:E
         | H : context [decide (?a = ?b)] |- _ =>
           destruct (decide (a = b)); [first [subst a | subst b]|]
         end.

Ltac rb_goal :=
  rb_cbn;
  repeat match goal with
         | H : ?x = _ |- context [?x] => rewrite H
         end;
  rb_cbn; rewrite ?decide_True, ?bool_decide_eq_true_2 by done;
  try done.

Section RBPure.
Context {T : Type}.
Implicit Types (t : tree T) (k : ctx T) (f : frame T).

Lemma is_red_node a c v (l r : tree T) : is_red (Node a c v l r) = color_is_red c.
Proof. by destruct c. Qed.

Lemma no_red_red_plug k t :
  no_red_red (plug k t) = no_red_red t && ctx_nrr k (is_red t).
Proof.
  revert t. induction k as [|f k IH]; intros t; [by rewrite andb_true_r|].
  destruct f as [a c v r|a c v l]; cbn [plug]; rewrite IH; clear IH;
    rewrite is_red_node; rb_cbn;
    destruct c, (is_red t), (no_red_red t); rb_cbn;
    repeat match goal with
           | |- context [is_red ?u] => destruct (is_red u)
           | |- context [no_red_red ?u] => destruct (no_red_red u)
           | |- context [ctx_nrr k ?b] => destruct (ctx_nrr k b)
           end; reflexivity.
Qed.

Lemma balanced_plug k t :
  is_Some (black_height (plug k t)) ↔
  ∃ h, black_height t = Some h ∧ ctx_bal k h = true.
Proof.
  revert t. induction k as [|f k IH]; intros t.
  { simpl. split; [intros [h ?]; by exists h | intros (h & ? & _); by exists h]. }
  destruct f as [a c v r|a c v l]; cbn [plug]; rewrite IH; clear IH.
  - split.
    + intros (h & Hbh & Hk). rb_cbn_in Hbh. rb_split.
      eexists. split; [done|]. destruct c; subst h; rb_goal.
    + intros (h & Hbh & Hk). rb_cbn_in Hk. rb_split.
      exists (match c with red => h | black => S h end). split; [rb_goal|].
      by destruct c.
  - split.
    + intros (h & Hbh & Hk). rb_cbn_in Hbh. rb_split.
      eexists. split; [done|]. destruct c; subst h; rb_goal.
    + intros (h & Hbh & Hk). rb_cbn_in Hk. rb_split.
      exists (match c with red => h | black => S h end). split; [rb_goal|].
      by destruct c.
Qed.

Lemma ctx_nrr_weaken k cr : ctx_nrr k cr = true → ctx_nrr k false = true.
Proof.
  destruct k as [|f k]; [done|]. destruct cr; [|done].
  rb_cbn. intros Hk. rb_split. destruct (frame_color f); rb_split; rb_goal.
Qed.

End RBPure.

(** ** [insertFixup] restores the red-black conditions *)

Section InsertFixupRB.
Context {T : Type} `{Ordered T}.
Implicit Types (s : set T) (h : gmap addr (node T)) (t : tree T) (k : ctx T).

Lemma wp_insertFixup_loop_rb fuel k z v l r s n bh Q E :
  (length k < fuel)%nat →
  tree_in s (plug k (Node z red v l r)) →
  ctx_root_black k →
  size s = n →
  black_height (Node z red v l r) = Some bh →
  no_red_red (Node z red v l r) = true →
  ctx_bal k bh = true →
  ctx_nrr k false = true →
  (∀ s' t', tree_in s' t' →
            no_red_red t' = true → is_Some (black_height t') →
            addrs t' = addrs (plug k (Node z red v l r)) →
            elements t' = elements (plug k (Node z red v l r)) →
            size s' = n → Q tt s') →
  wp (insertFixup_loop fuel (Some z)) s Q E.
Proof.
  revert k z v l r s bh Q E.
  induction fuel as [|fuel IH];
    intros k z v l r s bh Q E Hf Ht Hk Hsz Hbh Hnrr Hbal Hctx HQ; [lia|].
  pose proof (tree_in_NoDup _ _ Ht) as Hnd. rewrite addrs_plug in Hnd.
  assert (ctx_nrr k true = true →
          no_red_red (plug k (Node z red v l r)) = true
          ∧ is_Some (black_height (plug k (Node z red v l r)))) as Hvalid.
  { intros Hk'. split.
    - rewrite no_red_red_plug, Hnrr. done.
    - apply balanced_plug. by exists bh. }
  destruct k as [|[p cp vp u|p cp vp u] k1]; cbn [plug] in Ht.
  { simpl. tsteps. apply (HQ s _ Ht); [done | by eexists | done..]. }
  all: destruct cp;
    [|simpl; tsteps; destruct Hvalid as [? ?]; [exact Hctx|];
      by apply (HQ s _ Ht)].
  all: clear Hvalid.
  all: destruct k1 as [|[g cg vg y|g cg vg y] k2]; [done|..].
  all: destruct cg; [by (rb_cbn_in Hctx; rb_split)|].
  all: destruct y as [|ya [] vy yl yr].
  all: cbn [plug] in Ht; apply ctx_root_black_tail in Hk; distinct_facts Hnd.
  all: cbn [insertFixup_loop]; tsteps.
  all: rb_cbn_in Hbh; rb_cbn_in Hnrr; rb_cbn_in Hbal; rb_cbn_in Hctx; rb_split.
  all: lazymatch goal with
       | Ht : tree_in ?s ?t, Hsz : size ?s = _
         |- wp (insertFixup_loop _ (Some ?z)) ?s _ _ =>
         let foc := focus_of z t in
         lazymatch foc with
         | (?k, Node _ red ?v ?l ?r) =>
           eapply (IH k z v l r s);
           [ simpl in Hf |- *; lia
           | exact Ht
           | try (apply ctx_root_black_tail in Hk); simpl; destruct k2; done
           | exact Hsz
           | rb_goal
           | rb_goal
           | rb_goal
           | rb_goal
           | let s' := fresh "s" in
             let t' := fresh "t" in
             let Ht' := fresh "Ht" in
             let Ha := fresh "Ha" in
             let He := fresh "He" in
             intros s' t' Ht' ? ? Ha He ?; apply (HQ s' t' Ht');
             [ done | done
             | rewrite Ha; solve_inorder | rewrite He; solve_inorder | done ] ]
         end
       end.
Qed.

End InsertFixupRB.

Section InsertRB.
Context {T : Type} `{Ordered T}.
Implicit Types (s : set T) (h : gmap addr (node T)) (t : tree T) (k : ctx T).
Implicit Types (x y v : T).

Lemma red_black_blacken a c v (l r : tree T) :
  no_red_red (Node a c v l r) = true →
  is_Some (black_height (Node a c v l r)) →
  red_black (Node a black v l r).
Proof.
  intros Hnrr [h Hbh]. rb_cbn_in Hbh. rb_split.
  split_and!; [done | |].
  - destruct c; rb_cbn_in Hnrr; rb_split; rb_goal.
  - eexists. rb_goal.
Qed.

Lemma wp_insertFixup_rb k z v l r s n bh Q E :
  tree_in s (plug k (Node z red v l r)) →
  ctx_root_black k →
  size s = n →
  black_height (Node z red v l r) = Some bh →
  no_red_red (Node z red v l r) = true →
  ctx_bal k bh = true →
  ctx_nrr k false = true →
  (∀ s' t', tree_in s' t' → red_black t' →
            addrs t' = addrs (plug k (Node z red v l r)) →
            elements t' = elements (plug k (Node z red v l r)) →
            size s' = n → Q tt s') →
  wp (insertFixup (Some z)) s Q E.
Proof.
  intros Ht Hk Hsz Hbh Hnrr Hbal Hctx HQ. unfold insertFixup. wp_steps.
  eapply wp_insertFixup_loop_rb; [by eapply tree_in_depth | done..|].
  intros s' t' Ht' Hnrr' Hbh' Ha He Hsz'. wp_steps.
  destruct Ht' as (Hs' & Hr' & Hnd'). rewrite Hr'.
  destruct t' as [|r0 c0 v0 l0 r0'].
  { rewrite addrs_plug in Ha. apply (f_equal length) in Ha. simpl in Ha.
    rewrite !length_app in Ha. simpl in Ha. lia. }
  simpl. apply (wp_set_color_tree s' [] r0 c0 v0 l0 r0' black); [done|].
  intros s'' Ht'' Hsz''. apply (HQ s'' _ Ht''); [| | |congruence].
  - by eapply red_black_blacken.
  - by rewrite <- Ha.
  - by rewrite <- He.
Qed.

Theorem wp_Insert_rb x s t Q E :
  inv s t → red_black t →
  (∀ s' t', inv s' t' → red_black t' → Q tt s') →
  wp (Insert x) s Q E.
Proof.
  intros Hinv Hrbt HQ. pose proof Hinv as (Ht & Hbst & Hrb & Hsz).
  unfold Insert. wp_steps.
  pose proof Ht as (Hs & Hr & Hnd). rewrite Hr.
  eapply (wp_Insert_loop t _ [] x); [done | by apply tree_in_height |].
  pose proof (locate_plug x t []) as Hplug.
  pose proof (locate_dir_ok x t [] (Forall_nil_2 _)) as Hdir.
  pose proof (locate_bounds x t [] Hbst) as Hbounds.
  destruct (locate x t []) as [k [|z c v l r]]; simpl in *.
  - subst t. apply wp_attach; [done..|]. intros s1 a Ht1 Hsz1.
    destruct Hrbt as (_ & Hnrr & Hbh).
    apply balanced_plug in Hbh as (h0 & [= <-] & Hbal).
    rewrite no_red_red_plug in Hnrr. simpl in Hnrr.
    wp_steps. eapply (wp_insertFixup_rb k a x Leaf Leaf s1 _ 0%nat);
      [done | by eapply root_black_ctx | done..|].
    intros s2 t2 Ht2 Hrb2 Ha2 He2 Hsz2. wp_steps.
    destruct s2 as [h2 r2 sz2]. wp_simpl_all. subst sz2.
    destruct Hbounds as [Hbl Hbr];
      [by intros ? ? ? ?%elem_of_nil | by intros ? ? ? ?%elem_of_nil
      |by intros ? ?%elem_of_nil | by intros ? ?%elem_of_nil | done |].
    rewrite elements_plug in He2. simpl in He2.
    unfold bst in Hbst. rewrite elements_plug in Hbst, Hsz. simpl in Hbst, Hsz.
    apply HQ with (t' := t2); [|done].
    split_and!; [done | | apply Hrb2 |].
    + unfold bst. rewrite He2. by apply sorted_insert_middle.
    + simpl. rewrite He2. rewrite !length_app in *. simpl in *. lia.
  - wp_steps. by apply HQ with (t' := t).
Qed.

Lemma Insert_rb_ok x s t :
  inv s t → red_black t → ∃ s' t', Insert x s = Ok tt s' ∧ inv s' t' ∧ red_black t'.
Proof.
  intros Hinv Hrb.
  destruct (wp_total (Insert x) s (λ _ s', ∃ t', inv s' t' ∧ red_black t'))
    as ([] & s' & Hrun & t' & ? & ?).
  { eapply wp_Insert_rb; [done..|]. intros s' t' ? ?. by exists t'. }
  by exists s', t'.
Qed.

(** Height *)
Lemma black_height_size t bh :
  black_height t = Some bh → (2 ^ bh ≤ S (length (elements t)))%nat.
Proof.
  revert bh. induction t as [|a c v l IHl r IHr]; intros bh Hbh.
  { injection Hbh as <-. simpl. lia. }
  rb_cbn_in Hbh. rb_split.
  specialize (IHl _ eq_refl). specialize (IHr _ eq_refl).
  simpl. rewrite length_app. simpl.
  destruct c; subst bh; [|rewrite Nat.pow_succ_r']; lia.
Qed.

Lemma black_height_height t bh :
  black_height t = Some bh → no_red_red t = true →
  (height t ≤ 2 * bh + (if is_red t then 1 else 0))%nat.
Proof.
  revert bh. induction t as [|a c v l IHl r IHr]; intros bh Hbh Hnrr.
  { simpl. lia. }
  rb_cbn_in Hbh. rb_split.
  destruct c; rb_cbn_in Hnrr; rb_split;
    specialize (IHl _ eq_refl ltac:(done)); specialize (IHr _ eq_refl ltac:(done));
    subst bh; cbn [height is_red];
    destruct (is_red l), (is_red r); try done; lia.
Qed.

Lemma red_black_height t :
  red_black t → (height t ≤ 2 * Nat.log2 (S (length (elements t))))%nat.
Proof.
  intros (Hrb & Hnrr & [bh Hbh]).
  pose proof (black_height_size t bh Hbh) as Hsize.
  pose proof (black_height_height t bh Hbh Hnrr) as Hheight.
  assert (is_red t = false) as Hred by (by destruct t as [|? []]).
  rewrite Hred in Hheight.
  assert (bh ≤ Nat.log2 (S (length (elements t))))%nat; [|lia].
  apply Nat.log2_le_pow2; lia.
Qed.

End InsertRB.

(** ** [Remove] on a red-black tree *)

Section DeleteSplit.
Context {T : Type} `{Ordered T}.
Implicit Types (s : set T) (h : gmap addr (node T)) (t : tree T) (k : ctx T).

Lemma descend_left_app t k :
  descend_left t k = ((descend_left t []).1 ++ k, (descend_left t []).2).
Proof.
  revert k. induction t as [|a c v l IHl r _]; intros k; [done|].
  assert (∀ k', descend_left (Node a c v l r) k'
                = match l with
                  | Leaf => (k', Node a c v l r)
                  | Node _ _ _ _ _ => descend_left l (FL a c v r :: k')
                  end) as E by (intros; by destruct l).
  rewrite !E. destruct l as [|la lc lv ll lr]; [done|].
  rewrite (IHl (FL a c v r :: k)), (IHl [FL a c v r]).
  cbn [fst snd]. by rewrite <- app_assoc.
Qed.

(** [deleteNode] up to the decrement of [size]: the node is unlinked. *)
Lemma wp_deleteNode_split k z c v L R kx X oc s n Q E :
  tree_in s (plug k (Node z c v L R)) →
  size s = n →
  unlink k c L R = (kx, X, oc) →
  (∀ s1, tree_in s1 (plug kx X) → size s1 = n →
         wp (match ptr_of X with
             | Some x =>
               match oc with
               | red => ret tt
               | black => deleteFixup (Some x)
               end
             | None => ret tt
             end) {| heap := heap s1; root := root s1; size := size s1 - 1 |} Q E) →
  wp (deleteNode (Some z)) s Q E.
Proof.
  intros Ht Hsz Hunlink HK. unfold deleteNode.
  destruct L as [|l0 cl vl ll lr]; [|destruct R as [|r0 cr vr rl rr]].
  - (* no left child *)
    injection Hunlink as <- <- <-.
    tsteps. apply (wp_rbTransplant_right s k z c v R); [done|].
    intros s1 Ht1 Hsz1 _ _. rewrite Hsz in Hsz1. clear Ht Hsz s.
    wp_steps. by apply (HK s1).
  - (* a left child only *)
    injection Hunlink as <- <- <-.
    tsteps. apply (wp_rbTransplant_left s k z c v (Node l0 cl vl ll lr)); [done|].
    intros s1 Ht1 Hsz1. rewrite Hsz in Hsz1. clear Ht Hsz s.
    wp_steps. by apply (HK s1).
  - (* two children: the successor [y] takes the place of [z] *)
    tsteps. apply wp_get_fuel. apply wp_bind.
    destruct (descend_left_spec (Node r0 cr vr rl rr) [])
      as (kl & y & cy & vy & ry & Hd & Hfl & Hp); [done|].
    rewrite app_nil_r in Hd.
    cbn [unlink] in Hunlink. rewrite Hd in Hunlink.
    injection Hunlink as <- <- <-.
    eapply (wp_minNode (Node r0 cr vr rl rr) _ (FR z c v (Node l0 cl vl ll lr) :: k)).
    { by apply (tree_in_shape_sub s (FR z c v (Node l0 cl vl ll lr) :: k)). }
    { done. }
    { apply (tree_in_height_sub s (FR z c v (Node l0 cl vl ll lr) :: k)) in Ht. lia. }
    rewrite descend_left_app, Hd. cbn [fst snd ptr_of]. clear Hd.
    rewrite <- Hp in Ht.
    change (tree_in s (plug (FR z c v (Node l0 cl vl ll lr) :: k)
                         (plug kl (Node y cy vy Leaf ry)))) in Ht.
    rewrite <- plug_app in Ht. clear Hp.
    destruct kl as [|[yp cyp vyp uyp|? ? ? ?] kl']; [| |by inversion Hfl].
    + (* [y] is the right child of [z] *)
      cbn [app plug] in Ht. do 6 tstep. rewrite ptr_eqb_refl. wp_simpl.
      pose proof Ht as (Hs & Hr & Hnd). destruct s as [h rt sz]. wp_simpl_all.
      apply shape_plug in Hs as [Hks Hs].
      rewrite addrs_plug in Hnd. rewrite ptr_of_plug in Hr.
      destruct ry as [|b cb vb βl βr];
        destruct k as [|[p cp vp w|p cp vp w] k];
        simpl in Hs, Hks; destruct_ands; distinct_facts Hnd; subst rt;
        unfold rbTransplant; wp_steps_to_size.
      all: lazymatch goal with
           | |- wp _ {| heap := ?h'; root := ?r'; size := ?sz' - 1 |} _ _ =>
             apply (HK {| heap := h'; root := r'; size := sz' |}); [|done]
           end.
      all: prove_tree_in.
    + (* [y] lies deeper: it is unlinked first *)
      pose proof (tree_in_NoDup _ _ Ht) as Hnd.
      rewrite addrs_plug, addrs_l_app, addrs_r_app in Hnd.
      cbn [app] in Ht. do 6 tstep.
      assert (yp ≠ z) as Hne by (distinct_facts Hnd; neq).
      rewrite ptr_eqb_ne by done. wp_simpl. clear Hnd Hne.
      do 3 tstep.
      apply wp_bind.
      apply (wp_rbTransplant_right s
               (FL yp cyp vyp uyp :: kl' ++ FR z c v (Node l0 cl vl ll lr) :: k)
               y cy vy ry); [exact Ht|].
      intros s1 Ht1 Hsz1 Hy1 Hfresh1. rewrite Hsz in Hsz1. clear Ht Hsz s.
      destruct (plug_cons_is_node (FL yp cyp vyp uyp) kl' ry)
        as (r1 & c1 & v1 & rl1 & rr1 & HR').
      remember (FL yp cyp vyp uyp :: kl') as kl2 eqn:Hkl2.
      change (FL yp cyp vyp uyp :: kl' ++ FR z c v (Node l0 cl vl ll lr) :: k)
        with ((FL yp cyp vyp uyp :: kl') ++ FR z c v (Node l0 cl vl ll lr) :: k)
        in Ht1, Hfresh1, Hy1.
      rewrite <- Hkl2 in Ht1, Hfresh1, Hy1.
      rewrite plug_app in Ht1, Hfresh1. cbn [plug] in Ht1, Hfresh1.
      rewrite HR' in Ht1, Hfresh1.
      assert (ctx_ptr (kl2 ++ FR z c v (Node l0 cl vl ll lr) :: k) = Some yp) as Hyp
        by (by subst kl2).
      rewrite Hyp in Hy1. clear Hyp.
      pose proof Ht1 as (Hs & Hr & Hnd).
      assert (NoDup (y :: addrs (plug k (Node z c v (Node l0 cl vl ll lr)
                                           (Node r1 c1 v1 rl1 rr1))))) as Hnd2
        by (by apply NoDup_cons).
      clear Hnd Hfresh1.
      destruct s1 as [h rt sz]. wp_simpl_all.
      apply shape_plug in Hs as [Hks Hs].
      rewrite addrs_plug in Hnd2. rewrite ptr_of_plug in Hr.
      destruct k as [|[p cp vp w|p cp vp w] k];
        simpl in Hs, Hks; destruct_ands; distinct_facts Hnd2; subst rt;
        unfold rbTransplant; wp_steps_to_size.
      all: lazymatch goal with
           | |- wp _ {| heap := ?h'; root := ?r'; size := ?sz' - 1 |} _ _ =>
             apply (HK {| heap := h'; root := r'; size := sz' |}); [|done]
           end.
      all: rewrite plug_app; cbn [plug]; rewrite HR'; prove_tree_in.
Qed.

End DeleteSplit.

Section RemoveRB.
Context {T : Type} `{Ordered T}.
Implicit Types (s : set T) (t : tree T) (k : ctx T).
Implicit Types (x v : T).

(** On a red node the loop of [deleteFixup] ends at once. *)
Lemma wp_deleteFixup_red k a v l r s Q E :
  tree_in s (plug k (Node a red v l r)) →
  (∀ s', tree_in s' (plug k (Node a black v l r)) → size s' = size s → Q tt s') →
  wp (deleteFixup (Some a)) s Q E.
Proof.
  intros Ht HQ. unfold deleteFixup. wp_steps. unfold fuel_of.
  cbn [deleteFixup_loop]. apply wp_bind, wp_get_root.
  destruct k as [|f k].
  - pose proof Ht as (_ & Hr & _). simpl in Hr. rewrite Hr, ptr_eqb_refl.
    apply wp_ret. by apply (wp_set_color_tree s [] a red v l r black).
  - rewrite (tree_in_not_root s f k a red v l r Ht).
    apply wp_bind. apply (wp_getf_tree color s (f :: k) a red v l r); [done|].
    wp_simpl. apply wp_ret.
    by apply (wp_set_color_tree s (f :: k) a red v l r black).
Qed.

Lemma wp_deleteNode_rb k z c v L R kx X oc s Q E :
  tree_in s (plug k (Node z c v L R)) →
  unlink k c L R = (kx, X, oc) →
  (oc = black → X = Leaf ∨ is_red X = true) →
  (∀ s', tree_in s' (plug kx (match oc with black => blacken X | red => X end)) →
         size s' = size s - 1 → Q tt s') →
  wp (deleteNode (Some z)) s Q E.
Proof.
  intros Ht Hunlink Hred HQ.
  eapply wp_deleteNode_split; [done | reflexivity | done |].
  intros s1 Ht1 Hsz1.
  assert (tree_in {| heap := heap s1; root := root s1; size := size s1 - 1 |}
            (plug kx X)) as Ht' by done.
  destruct X as [|x cx vx xl xr]; [|destruct oc]; cbn [ptr_of].
  - apply wp_ret. apply HQ; [by destruct oc | simpl; lia].
  - apply wp_ret. apply HQ; [done | simpl; lia].
  - destruct Hred as [?|Hred]; [done..|]. destruct cx; [|done].
    eapply wp_deleteFixup_red; [exact Ht'|].
    intros s' ? Hsz'. apply HQ; [done|]. rewrite Hsz'. simpl. lia.
Qed.

(** *** What unlinking does to the red-black conditions *)

Lemma ctx_bal_inj k h1 h2 :
  k ≠ [] → ctx_bal k h1 = true → ctx_bal k h2 = true → h1 = h2.
Proof.
  destruct k as [|f k]; [done|]. intros _ H1 H2.
  rb_cbn_in H1. rb_cbn_in H2. rb_split. congruence.
Qed.

Lemma unlinked_rb k cy X :
  black_height X = Some 0%nat →
  no_red_red X = true →
  (cy = red → is_red X = false) →
  ctx_nrr k (color_is_red cy) = true →
  ctx_bal k (match cy with red => 0 | black => 1 end)%nat = true →
  (cy = black → X = Leaf ∨ is_red X = true)
  ∧ no_red_red (plug k (match cy with black => blacken X | red => X end)) = true
  ∧ (is_Some (black_height (plug k (match cy with black => blacken X | red => X end)))
     ↔ ¬ (cy = black ∧ X = Leaf ∧ k ≠ [])).
Proof.
  intros Hbh Hnrr Hred Hkn Hkb.
  pose proof (ctx_nrr_weaken _ _ Hkn) as Hkn'.
  destruct X as [|x [] vx xl xr].
  - (* nothing takes the place *)
    split_and!; [by left | destruct cy; by rewrite no_red_red_plug |].
    rewrite balanced_plug. split.
    + intros (h' & Hh' & Hk') (-> & _ & Hne). simpl in Hh'.
      injection Hh' as <-. by pose proof (ctx_bal_inj _ _ _ Hne Hkb Hk').
    + intros Hno. destruct cy; [by exists 0%nat|].
      destruct k as [|f k]; [by exists 0%nat|].
      destruct Hno. done.
  - (* a red child takes the place and is painted black *)
    destruct cy; [by specialize (Hred eq_refl)|].
    rb_cbn_in Hbh. rb_cbn_in Hnrr. rb_split.
    split_and!; [by right | |].
    + rewrite no_red_red_plug. rb_goal.
    + split; [intros _ (_ & ? & _); done|]. intros _.
      apply balanced_plug. exists 1%nat. split; [rb_goal | done].
  - (* a black child: the black heights forbid it *)
    rb_cbn_in Hbh. rb_split. done.
Qed.

Lemma ctx_nrr_swap k1 f f' k2 cr :
  frame_color f = frame_color f' → frame_sibling f = frame_sibling f' →
  ctx_nrr (k1 ++ f :: k2) cr = ctx_nrr (k1 ++ f' :: k2) cr.
Proof.
  intros Hc Hs. revert cr. induction k1 as [|g k1 IH]; intros cr; simpl.
  - unfold frame_nrr. by rewrite Hc, Hs.
  - by rewrite IH.
Qed.

Lemma ctx_bal_swap k1 f f' k2 h :
  frame_color f = frame_color f' → frame_sibling f = frame_sibling f' →
  ctx_bal (k1 ++ f :: k2) h = ctx_bal (k1 ++ f' :: k2) h.
Proof.
  intros Hc Hs. revert h. induction k1 as [|g k1 IH]; intros h; simpl.
  - unfold frame_bh. by rewrite Hc, Hs.
  - by rewrite IH.
Qed.

Lemma unlink_rb k z c v L R kx X oc :
  no_red_red (plug k (Node z c v L R)) = true →
  is_Some (black_height (plug k (Node z c v L R))) →
  unlink k c L R = (kx, X, oc) →
  (oc = black → X = Leaf ∨ is_red X = true)
  ∧ no_red_red (plug kx (match oc with black => blacken X | red => X end)) = true
  ∧ (is_Some (black_height (plug kx (match oc with black => blacken X | red => X end)))
     ↔ ¬ (oc = black ∧ X = Leaf ∧ kx ≠ [])).
Proof.
  intros Hnrr Hbal Hunlink.
  destruct L as [|l0 cl vl ll lr]; [|destruct R as [|r0 cr vr rl rr]].
  - injection Hunlink as <- <- <-.
    rewrite no_red_red_plug, is_red_node in Hnrr.
    apply balanced_plug in Hbal as (h & Hbh & Hkb).
    apply andb_prop in Hnrr as [Hnrr Hkn].
    rb_cbn_in Hbh. rb_split.
    apply unlinked_rb; [done | | | done |].
    + destruct c; rb_cbn_in Hnrr; rb_split; done.
    + intros ->. rb_cbn_in Hnrr. by rb_split.
    + by destruct c; subst h.
  - injection Hunlink as <- <- <-.
    rewrite no_red_red_plug, is_red_node in Hnrr.
    apply balanced_plug in Hbal as (h & Hbh & Hkb).
    apply andb_prop in Hnrr as [Hnrr Hkn].
    remember (Node l0 cl vl ll lr) as L eqn:HL.
    rb_cbn_in Hbh. rb_split.
    apply unlinked_rb; [done | | | done |].
    + destruct c; rb_cbn_in Hnrr; rb_split; done.
    + intros ->. rb_cbn_in Hnrr. by rb_split.
    + by destruct c; subst h.
  - destruct (descend_left_spec (Node r0 cr vr rl rr) [])
      as (kl & y & cy & vy & ry & Hd & Hfl & Hp); [done|].
    rewrite app_nil_r in Hd.
    cbn [unlink] in Hunlink. rewrite Hd in Hunlink.
    injection Hunlink as <- <- <-.
    rewrite <- Hp in Hnrr, Hbal.
    change (plug k (Node z c v (Node l0 cl vl ll lr) (plug kl (Node y cy vy Leaf ry))))
      with (plug (FR z c v (Node l0 cl vl ll lr) :: k) (plug kl (Node y cy vy Leaf ry)))
      in Hnrr, Hbal.
    rewrite <- plug_app in Hnrr, Hbal.
    rewrite no_red_red_plug, is_red_node in Hnrr.
    apply balanced_plug in Hbal as (h & Hbh & Hkb).
    apply andb_prop in Hnrr as [Hnrr Hkn].
    rewrite (ctx_nrr_swap kl _ (FR y c vy (Node l0 cl vl ll lr))) in Hkn by done.
    rewrite (ctx_bal_swap kl _ (FR y c vy (Node l0 cl vl ll lr))) in Hkb by done.
    rb_cbn_in Hbh. rb_split.
    apply unlinked_rb; [done | | | done |].
    + destruct cy; rb_cbn_in Hnrr; rb_split; done.
    + intros ->. rb_cbn_in Hnrr. by rb_split.
    + by destruct cy; subst h.
Qed.

Lemma wp_Remove_rb x s t Q E :
  inv s t → red_black t →
  (∀ s', tree_in s' (remove_tree x t) →
         no_red_red (remove_tree x t) = true →
         (is_Some (black_height (remove_tree x t))
          ↔ unlinks_black_leaf x t = false) →
         Q tt s') →
  wp (Remove x) s Q E.
Proof.
  intros Hinv (_ & Hnrr & Hbal) HQ. pose proof Hinv as (Ht & Hbst & Hrb & Hsz).
  unfold Remove. wp_steps.
  pose proof Ht as (Hs & Hr & Hnd). rewrite Hr.
  eapply (wp_Remove_loop t _ [] x); [done | by apply tree_in_height |].
  pose proof (locate_plug x t []) as Hplug.
  unfold remove_tree, unlinks_black_leaf in HQ.
  destruct (locate x t []) as [k [|z c v L R]]; simpl in Hplug.
  - by apply HQ.
  - subst t. destruct (unlink k c L R) as [[kx X] oc] eqn:Hunlink.
    destruct (unlink_rb k z c v L R kx X oc Hnrr Hbal Hunlink) as (Hred & Hn & Hb).
    eapply wp_deleteNode_rb; [done..|].
    intros s' Ht' _. apply HQ.
    + by destruct oc.
    + by destruct oc.
    + destruct oc; rewrite Hb; destruct X, kx; naive_solver.
Qed.

Lemma Remove_rb_ok x s t :
  inv s t → red_black t →
  ∃ s' t', Remove x s = Ok tt s' ∧ inv s' t'
           ∧ (∀ y, y ∈ elements t' ↔ y ≠ x ∧ y ∈ elements t)
           ∧ no_red_red t' = true
           ∧ (is_Some (black_height t') ↔ unlinks_black_leaf x t = false).
Proof.
  intros Hinv Hrb.
  destruct (wp_total (Remove x) s
              (λ _ s', tree_in s' (remove_tree x t)
                       ∧ no_red_red (remove_tree x t) = true
                       ∧ (is_Some (black_height (remove_tree x t))
                          ↔ unlinks_black_leaf x t = false)))
    as ([] & s' & Hrun & Ht' & Hn & Hb).
  { eapply wp_Remove_rb; [done..|]. by intros s' ? ? ?. }
  destruct (Remove_ok x s t Hinv) as (s'' & t'' & Hout & Hinv'' & Hel & _).
  rewrite Hrun in Hout. injection Hout as <-.
  assert (t'' = remove_tree x t) as ->
    by (eapply tree_in_unique; [apply Hinv'' | done]).
  by exists s', (remove_tree x t).
Qed.

End RemoveRB.

(** ** Iteration, sequences of calls *)

Section Iteration.
Context {T : Type} `{Ordered T}.
Implicit Types (s : set T) (t : tree T) (k : ctx T).
Implicit Types (x v : T).

Lemma yielded_app yield (l1 l2 : list T) :
  yielded yield (l1 ++ l2)
  = if forallb yield l1 then l1 ++ yielded yield l2 else yielded yield l1.
Proof.
  induction l1 as [|v l1 IH]; simpl; [done|].
  destruct (yield v); simpl; [|done]. rewrite IH. by destruct (forallb yield l1).
Qed.

Lemma yielded_all yield (l : list T) :
  forallb yield l = true → yielded yield l = l.
Proof.
  intros Hall. rewrite <- (app_nil_r l) at 1. rewrite yielded_app, Hall.
  simpl. by rewrite app_nil_r.
Qed.

Lemma All_loop_tree_yield yield t fuel par stack out s :
  shape (heap s) par t →
  All_loop (2 * length (addrs t) + fuel) yield stack (ptr_of t) out s
  = if forallb yield (elements t)
    then All_loop fuel yield stack None (out ++ elements t) s
    else Ok (out ++ yielded yield (elements t)) s.
Proof.
  revert fuel par stack out.
  induction t as [|a c v l IHl r IHr]; intros fuel par stack out Hs.
  { simpl. by rewrite app_nil_r. }
  simpl in Hs. destruct Hs as (Ha & Hl & Hr).
  cbn [addrs elements ptr_of]. rewrite length_app. cbn [length].
  replace (2 * (length (addrs l) + S (length (addrs r))) + fuel)%nat
    with (S (2 * length (addrs l) + S (2 * length (addrs r) + fuel)))%nat by lia.
  cbn [All_loop]. unfold bind at 1, getf at 1, bind at 1, load. rewrite Ha.
  unfold ret at 1. cbn [left].
  erewrite IHl by done.
  rewrite forallb_app, yielded_app. cbn [forallb yielded].
  destruct (forallb yield (elements l)); [|done].
  cbn [All_loop andb].
  unfold bind at 1, getf at 1, bind at 1, load. rewrite Ha. unfold ret at 1.
  cbn [value]. destruct (yield v); cbn [andb].
  - unfold bind at 1, getf at 1, bind at 1, load. rewrite Ha.
    unfold ret at 1. cbn [right].
    erewrite IHr by done. rewrite <- !app_assoc. cbn [app].
    by destruct (forallb yield (elements r)).
  - unfold ret. by rewrite <- app_assoc.
Qed.

Lemma All_with_ok yield s t :
  tree_in s t → All_with yield s = Ok (yielded yield (elements t)) s.
Proof.
  intros Ht. pose proof Ht as (Hs & Hr & Hnd).
  pose proof (tree_in_size _ _ Ht) as Hsize.
  unfold All_with, bind, get_fuel, get_root, fuel_of. rewrite Hr.
  replace (2 * S (base.size (heap s)))%nat
    with (2 * length (addrs t) + S (S (2 * (base.size (heap s) - length (addrs t)))))%nat
    by lia.
  erewrite All_loop_tree_yield by done.
  destruct (forallb yield (elements t)) eqn:Hall; [|done].
  simpl. by rewrite yielded_all.
Qed.

End Iteration.

Section Extras.
Context {T : Type} `{Ordered T}.
Implicit Types (s : set T) (t : tree T) (ops : list (op T)).
Implicit Types (x y v : T).

Lemma sorted_ext (l1 l2 : list T) :
  sorted l1 → sorted l2 → (∀ y, y ∈ l1 ↔ y ∈ l2) → l1 = l2.
Proof.
  intros H1 H2 Hel. apply (StronglySorted_unique_strong lessP); [|done..|].
  - intros x1 x2 _ _ Hlt Hgt. unfold lessP in *.
    apply less_asym in Hlt. congruence.
  - apply NoDup_Permutation; [by apply sorted_NoDup..|done].
Qed.

Lemma eq_or_ne x y : x = y ∨ x ≠ y.
Proof.
  destruct (same x y) eqn:Hs; [left; by apply same_spec|].
  right. intros Heq. apply same_spec in Heq. congruence.
Qed.

Lemma run_inserts_rb xs s0 t0 :
  inv s0 t0 → red_black t0 →
  ∃ s t, run (map OpInsert xs) s0 = Ok tt s ∧ inv s t ∧ red_black t.
Proof.
  revert s0 t0. induction xs as [|x xs IH]; intros s0 t0 Hinv Hrb.
  { by exists s0, t0. }
  destruct (Insert_rb_ok x s0 t0 Hinv Hrb) as (s1 & t1 & Hins & Hinv1 & Hrb1).
  destruct (IH s1 t1 Hinv1 Hrb1) as (s & t & Hrun & ? & ?).
  exists s, t. split; [|done]. simpl. unfold bind. by rewrite Hins.
Qed.

Lemma run_inserts_ok xs s0 t0 :
  inv s0 t0 → ∃ s, run (map OpInsert xs) s0 = Ok tt s.
Proof.
  revert s0 t0. induction xs as [|x xs IH]; intros s0 t0 Hinv.
  { by exists s0. }
  destruct (Insert_ok x s0 t0 Hinv) as (s1 & t1 & Hins & Hinv1 & _).
  destruct (IH s1 t1 Hinv1) as (s & Hrun).
  exists s. simpl. unfold bind. by rewrite Hins.
Qed.

Lemma run_app ops1 ops2 s :
  run (ops1 ++ ops2) s
  = match run ops1 s with
    | Ok _ s' => run ops2 s'
    | Panic s' => Panic s'
    | OutOfFuel => OutOfFuel
    end.
Proof.
  revert s. induction ops1 as [|o ops1 IH]; intros s; [done|].
  simpl. unfold bind. destruct (step o s); [apply IH | done..].
Qed.

Lemma run_recover_inv ops s0 t0 m0 :
  inv s0 t0 → (∀ y, y ∈ elements t0 ↔ y ∈ m0) →
  ∃ s t, run_recover ops s0 = Some s ∧ inv s t
         ∧ (∀ y, y ∈ elements t ↔ y ∈ fold_left model_step ops m0).
Proof.
  revert s0 t0 m0. induction ops as [|o ops IH]; intros s0 t0 m0 Hinv Hm.
  { by exists s0, t0. }
  destruct o as [x|x]; cbn [run_recover step fold_left].
  - destruct (Insert_ok x s0 t0 Hinv) as (s1 & t1 & Hstep & Hinv1 & Hel & _).
    rewrite Hstep. cbn [outcome]. apply (IH s1 t1); [done|].
    intros y. rewrite Hel, Hm. symmetry. apply model_step_insert.
  - destruct (Remove_ok x s0 t0 Hinv) as (s1 & t1 & Hstep & Hinv1 & Hel & _).
    rewrite Hstep. apply (IH s1 t1); [done|].
    intros y. rewrite Hel, Hm. symmetry. apply model_step_remove.
Qed.

(** X1: [Insert] keeps the red-black conditions: on a state that holds a
    red-black search tree it returns, and the state it leaves holds one. *)
Theorem Insert_keeps_red_black x s t :
  inv s t → red_black t →
  ∃ s' t', Insert x s = Ok tt s' ∧ inv s' t' ∧ red_black t'.
Proof. apply Insert_rb_ok. Qed.

(** X2: a set built by calls of [Insert] alone holds a red-black tree, whatever
    the values and their order. *)
Theorem Insert_only_red_black (xs : list T) :
  ∃ s t, run (map OpInsert xs) New = Ok tt s ∧ inv s t ∧ red_black t.
Proof.
  apply (run_inserts_rb xs New Leaf); [apply inv_New|].
  split_and!; [done..|]. by exists 0%nat.
Qed.

(** X3: on a state that holds a red-black tree of [n] nodes the height of the
    tree is at most [2 * log2 (n + 1)], and the loop of [Contains] ends
    within that many iterations. *)
Theorem Contains_logarithmic x s t :
  inv s t → red_black t →
  (height t ≤ 2 * Nat.log2 (S (Z.to_nat (size s))))%nat
  ∧ ∃ b, Contains x s = Ok b s
         ∧ Contains_loop (S (2 * Nat.log2 (S (Z.to_nat (size s))))) x (root s) s
           = Ok b s.
Proof.
  intros Hinv Hrb. pose proof Hinv as (Ht & _ & _ & Hsz).
  pose proof (red_black_height t Hrb) as Hh.
  rewrite Hsz, Nat2Z.id. split; [done|].
  exists (mem x t). split; [by apply Contains_ok|].
  destruct (wp_total (Contains_loop (S (2 * Nat.log2 (S (length (elements t)))))
                        x (root s)) s (λ b s', b = mem x t ∧ s' = s))
    as (b & s' & Hrun & -> & ->); [|done].
  destruct Ht as (Hs & -> & _).
  eapply wp_Contains_loop; [done | lia | done].
Qed.

(** X4: on a state that holds a red-black tree [Remove] returns: it does not
    panic. *)
Theorem Remove_red_black_returns x s t :
  inv s t → red_black t → ∃ s', Remove x s = Ok tt s'.
Proof.
  intros Hinv Hrb.
  destruct (Remove_rb_ok x s t Hinv Hrb) as (s' & _ & ? & _). by exists s'.
Qed.

(** X5: on a state that holds a red-black tree [Remove x] leaves a search tree
    with a black root and without a red node that has a red child; its
    black heights are balanced exactly when the node taken out of the tree
    was not a black node without children below the root. *)
Theorem Remove_red_black_balance x s t :
  inv s t → red_black t →
  ∃ s' t', Remove x s = Ok tt s' ∧ inv s' t'
           ∧ no_red_red t' = true
           ∧ (is_Some (black_height t') ↔ unlinks_black_leaf x t = false).
Proof.
  intros Hinv Hrb.
  destruct (Remove_rb_ok x s t Hinv Hrb) as (s' & t' & ? & ? & _ & ? & ?).
  by exists s', t'.
Qed.

(** X6: a sequence of calls with a single [Remove] in it returns: the panic
    of [Remove] needs an earlier [Remove]. *)
Theorem single_Remove_returns (xs ys : list T) x :
  ∃ s, run (map OpInsert xs ++ OpRemove x :: map OpInsert ys) New = Ok tt s.
Proof.
  destruct (run_inserts_rb xs New Leaf) as (s1 & t1 & Hrun1 & Hinv1 & Hrb1);
    [apply inv_New | by split_and!; [..|exists 0%nat] |].
  destruct (Remove_rb_ok x s1 t1 Hinv1 Hrb1) as (s2 & t2 & Hrem & Hinv2 & _).
  destruct (run_inserts_ok ys s2 t2 Hinv2) as (s3 & Hrun3).
  exists s3. rewrite run_app, Hrun1. simpl. unfold bind. by rewrite Hrem.
Qed.

(** X7: what [All] yields depends on the values in the set only, not on the
    calls that put them there. *)
Theorem All_canonical ops1 ops2 s1 s2 :
  run ops1 New = Ok tt s1 → run ops2 New = Ok tt s2 →
  (∀ y, y ∈ model ops1 ↔ y ∈ model ops2) →
  ∃ l, All s1 = Ok l s1 ∧ All s2 = Ok l s2.
Proof.
  intros (t1 & Hinv1 & Hm1)%reachable_inv (t2 & Hinv2 & Hm2)%reachable_inv Hm.
  exists (elements t1). split; [by apply All_ok|].
  rewrite (All_ok s2 t2 Hinv2). f_equal.
  apply sorted_ext; [apply Hinv2 | apply Hinv1 |].
  intros y. by rewrite Hm1, Hm2, Hm.
Qed.

(** X8: [Insert x] followed by [Remove x] on a set without [x], and [Remove x]
    followed by [Insert x] on a set with [x], give back a set with the same
    values and the same length. *)
Theorem Insert_Remove_round_trip ops s x :
  run ops New = Ok tt s →
  ∃ b l n s1 s2,
    Contains x s = Ok b s ∧ All s = Ok l s ∧ Len s = Ok n s
    ∧ (if b then outcome (Remove x s) = Some s1 ∧ Insert x s1 = Ok tt s2
       else Insert x s = Ok tt s1 ∧ outcome (Remove x s1) = Some s2)
    ∧ All s2 = Ok l s2 ∧ Len s2 = Ok n s2.
Proof.
  intros (t & Hinv & _)%reachable_inv.
  destruct (mem x t) eqn:Hmem.
  - destruct (Remove_ok x s t Hinv) as (s1 & t1 & Hrem & Hinv1 & Hel1 & _ & Hsz1).
    destruct (Insert_ok x s1 t1 Hinv1) as (s2 & t2 & Hins & Hinv2 & Hel2 & _ & Hsz2).
    exists true, (elements t), (size s), s1, s2.
    assert (mem x t1 = false) as Hmem1.
    { destruct (mem x t1) eqn:Hm; [|done].
      apply mem_spec in Hm; [|apply Hinv1]. apply Hel1 in Hm. by destruct Hm. }
    split_and!; [rewrite <- Hmem; by apply Contains_ok | by apply All_ok
                | done | done | done | |].
    + rewrite (All_ok s2 t2 Hinv2). f_equal.
      apply sorted_ext; [apply Hinv2 | apply Hinv |].
      intros y. rewrite Hel2, Hel1. split; [|destruct (eq_or_ne y x); tauto].
      intros [->|[_ ?]]; [|done]. apply mem_spec; [apply Hinv | done].
    + rewrite Len_ok. f_equal. rewrite (Hsz2 Hmem1), (Hsz1 Hmem). lia.
  - destruct (Insert_ok x s t Hinv) as (s1 & t1 & Hins & Hinv1 & Hel1 & _ & Hsz1).
    destruct (Remove_ok x s1 t1 Hinv1) as (s2 & t2 & Hrem & Hinv2 & Hel2 & _ & Hsz2).
    exists false, (elements t), (size s), s1, s2.
    assert (mem x t1 = true) as Hmem1.
    { apply mem_spec; [apply Hinv1|]. apply Hel1. by left. }
    split_and!; [rewrite <- Hmem; by apply Contains_ok | by apply All_ok
                | done | done | done | |].
    + rewrite (All_ok s2 t2 Hinv2). f_equal.
      apply sorted_ext; [apply Hinv2 | apply Hinv |].
      intros y. rewrite Hel2, Hel1. split; [intros [? [?|?]]; done|].
      intros Hy. split; [|by right]. intros ->.
      apply mem_spec in Hy; [congruence | apply Hinv].
    + rewrite Len_ok. f_equal. rewrite (Hsz2 Hmem1), (Hsz1 Hmem). lia.
Qed.

(** X9: a caller that recovers from the panics of [Remove] and goes on is left
    with a consistent set at every point: [All] yields, in increasing
    order, the values inserted and not removed since, and [Len] counts
    them. *)
Theorem run_recover_consistent ops :
  ∃ s l, run_recover ops New = Some s
         ∧ All s = Ok l s ∧ sorted l ∧ l ≡ₚ model ops
         ∧ Len s = Ok (Z.of_nat (length l)) s.
Proof.
  destruct (run_recover_inv ops New Leaf [] inv_New) as (s & t & Hrun & Hinv & Hm);
    [done|].
  exists s, (elements t).
  split_and!; [done | by apply All_ok | apply Hinv | |].
  - apply NoDup_Permutation; [|apply model_NoDup|done].
    apply sorted_NoDup, Hinv.
  - rewrite Len_ok. f_equal. apply Hinv.
Qed.

(** X10: a loop over [All] that breaks sees the values up to and including the
    one at which it breaks, and leaves the set as it was. *)
Theorem All_with_prefix ops s (yield : T → bool) :
  run ops New = Ok tt s →
  ∃ l, All s = Ok l s ∧ All_with yield s = Ok (yielded yield l) s.
Proof.
  intros (t & Hinv & _)%reachable_inv.
  exists (elements t). split; [by apply All_ok|].
  apply All_with_ok, Hinv.
Qed.

End Extras.

(** ** Rotations and fix-ups on their own *)

(** The heap after a series of writes that restore every field is the heap
    before them. *)
Ltac heap_eq :=
  apply map_eq; intros ?i;
  repeat lazymatch goal with
         | |- <[?a := _]> _ !! ?i = _ =>
           first [ rewrite lookup_insert_ne by done
                 | destruct (decide (i = a)) as [->|];
                   [ rewrite lookup_insert_eq; symmetry; eassumption
                   | rewrite lookup_insert_ne by done ] ]
         end;
  reflexivity.

Section RotationInverse.
Context {T : Type}.
Implicit Types (s : set T) (t : tree T) (k : ctx T).

Lemma wp_returns (m : M T unit) s s' :
  wp m s (λ _ s1, s1 = s') (λ _, False) → m s = Ok tt s'.
Proof. unfold wp. destruct (m s) as [[] ?| |]; [by intros ->|done..]. Qed.

(** X11: [leftRotate x] turns the subtree [x(α, y(β, γ))] into [y(x(α, β), γ)],
    and [rightRotate y] then gives back the state [leftRotate] started
    from. *)
Theorem leftRotate_rightRotate s k x cx vx α y cy vy β γ :
  tree_in s (plug k (Node x cx vx α (Node y cy vy β γ))) →
  ∃ s1, leftRotate (Some x) s = Ok tt s1
        ∧ tree_in s1 (plug k (Node y cy vy (Node x cx vx α β) γ))
        ∧ rightRotate (Some y) s1 = Ok tt s.
Proof.
  intros Ht.
  destruct (wp_total (leftRotate (Some x)) s
              (λ _ s1, tree_in s1 (plug k (Node y cy vy (Node x cx vx α β) γ))
                       ∧ rightRotate (Some y) s1 = Ok tt s))
    as ([] & s1 & Hrun & ? & ?); [|by exists s1].
  destruct Ht as (Hs & Hr & Hnd). destruct s as [h rt sz]. wp_simpl_all.
  assert (NoDup (addrs (plug k (Node y cy vy (Node x cx vx α β) γ)))) as Hnd'.
  { revert Hnd. apply NoDup_plug_eq. simpl. by rewrite <- app_assoc. }
  apply shape_plug in Hs as [Hk Hs].
  rewrite addrs_plug in Hnd. rewrite ptr_of_plug in Hr.
  destruct β as [|b cb vb βl βr];
    destruct k as [|[p cp vp u|p cp vp u] k];
    simpl in Hs, Hk; destruct_ands; distinct_facts Hnd; subst rt;
    unfold leftRotate; wp_steps.
  all: split;
    [ split_and!; [| by rewrite ptr_of_plug | done];
      apply shape_plug; simpl; split_and!; solve_shape
    | apply wp_returns; unfold rightRotate; wp_steps; f_equal; heap_eq ].
Qed.

(** X12: [rightRotate x] turns the subtree [x(y(α, β), γ)] into [y(α, x(β, γ))],
    and [leftRotate y] then gives back the state [rightRotate] started
    from. *)
Theorem rightRotate_leftRotate s k x cx vx α y cy vy β γ :
  tree_in s (plug k (Node x cx vx (Node y cy vy α β) γ)) →
  ∃ s1, rightRotate (Some x) s = Ok tt s1
        ∧ tree_in s1 (plug k (Node y cy vy α (Node x cx vx β γ)))
        ∧ leftRotate (Some y) s1 = Ok tt s.
Proof.
  intros Ht.
  destruct (wp_total (rightRotate (Some x)) s
              (λ _ s1, tree_in s1 (plug k (Node y cy vy α (Node x cx vx β γ)))
                       ∧ leftRotate (Some y) s1 = Ok tt s))
    as ([] & s1 & Hrun & ? & ?); [|by exists s1].
  destruct Ht as (Hs & Hr & Hnd). destruct s as [h rt sz]. wp_simpl_all.
  assert (NoDup (addrs (plug k (Node y cy vy α (Node x cx vx β γ))))) as Hnd'.
  { revert Hnd. apply NoDup_plug_eq. simpl. by rewrite <- app_assoc. }
  apply shape_plug in Hs as [Hk Hs].
  rewrite addrs_plug in Hnd. rewrite ptr_of_plug in Hr.
  destruct β as [|b cb vb βl βr];
    destruct k as [|[p cp vp u|p cp vp u] k];
    simpl in Hs, Hk; destruct_ands; distinct_facts Hnd; subst rt;
    unfold rightRotate; wp_steps.
  all: split;
    [ split_and!; [| by rewrite ptr_of_plug | done];
      apply shape_plug; simpl; split_and!; solve_shape
    | apply wp_returns; unfold leftRotate; wp_steps; f_equal; heap_eq ].
Qed.


End RotationInverse.

Section Fixups.
Context {T : Type} `{Ordered T}.
Implicit Types (s : set T) (t : tree T) (k : ctx T).

(** X14: [insertFixup] only rearranges: on any node of a tree whose root is
    black it returns, and the tree it leaves has a black root and the same
    nodes and values in the same order. *)
Theorem insertFixup_rearranges s k z c v l r :
  tree_in s (plug k (Node z c v l r)) →
  ctx_root_black k →
  ∃ s' t', insertFixup (Some z) s = Ok tt s'
           ∧ tree_in s' t' ∧ root_black t'
           ∧ addrs t' = addrs (plug k (Node z c v l r))
           ∧ elements t' = elements (plug k (Node z c v l r))
           ∧ size s' = size s.
Proof.
  intros Ht Hk.
  destruct (wp_total (insertFixup (Some z)) s
              (λ _ s', ∃ t', tree_in s' t' ∧ root_black t'
                 ∧ addrs t' = addrs (plug k (Node z c v l r))
                 ∧ elements t' = elements (plug k (Node z c v l r))
                 ∧ size s' = size s))
    as ([] & s' & Hrun & t' & ?); [|by exists s', t'].
  eapply wp_insertFixup; [done | done | reflexivity |].
  intros s' t' ? ? ? ? ?. by exists t'.
Qed.

(** X15: [deleteFixup] only rearranges: on any node of a tree whose root is
    black it ends, by returning or by the panic on a nil sibling, and the
    tree it leaves has a black root and the same values in the same
    order. *)
Theorem deleteFixup_rearranges s k x c v l r :
  tree_in s (plug k (Node x c v l r)) →
  ctx_root_black k →
  ∃ s' t', outcome (deleteFixup (Some x) s) = Some s'
           ∧ tree_in s' t' ∧ root_black t'
           ∧ elements t' = elements (plug k (Node x c v l r))
           ∧ size s' = size s.
Proof.
  intros Ht Hk.
  assert (wp (deleteFixup (Some x)) s
            (λ _ s', ∃ t', tree_in s' t' ∧ root_black t'
               ∧ elements t' = elements (plug k (Node x c v l r))
               ∧ size s' = size s)
            (λ s', ∃ t', tree_in s' t' ∧ root_black t'
               ∧ elements t' = elements (plug k (Node x c v l r))
               ∧ size s' = size s)) as Hwp.
  { eapply wp_deleteFixup; [done | done | reflexivity |..];
      intros s' t' ? ? ? ?; by exists t'. }
  unfold wp in Hwp.
  destruct (deleteFixup (Some x) s) as [[] s'|s'|]; [..|done];
    destruct Hwp as (t' & ?); by exists s', t'.
Qed.

End Fixups.

(** ** The code on integers *)

#[export] Existing Instance Z_Ordered.

(** C1: after [Insert] of 0, 1, 2, 3 and [Remove 0] the state holds the tree
    [1(nil, 2(nil, 3))] with 3 red: the root is black and no red node has a
    red child, but the paths from the root do not pass through the same
    number of black nodes, whichever tree one reads off the state.  The
    removed node was a black leaf, [x] is nil, and [deleteNode] skips
    [deleteFixup]. *)
Theorem black_height_broken :
  run ops_C1 New = Ok tt state_C1
  ∧ tree_in state_C1 tree_C1
  ∧ root_black tree_C1
  ∧ no_red_red tree_C1 = true
  ∧ ∀ t, tree_in state_C1 t → black_height t = None.
Proof.
  assert (tree_in state_C1 tree_C1) as Htree.
  { split_and!; [| done |].
    - simpl. split_and!; done.
    - simpl. apply NoDup_ListNoDup. repeat constructor; simpl; intuition lia. }
  split_and!; [vm_compute; reflexivity | done..|].
  intros t Ht. by rewrite (tree_in_unique _ _ _ Ht Htree).
Qed.

(** C2: the last call of this sequence, [Remove 4], panics: node 4 is black
    and is replaced by its only child 0, which is black and has no sibling,
    so that in [deleteFixup] [w] is nil and [w.color] dereferences it. *)
Theorem Remove_panics :
  run (removelast ops_C2) New = Ok tt state_C2
  ∧ (∃ s', Remove 4 state_C2 = Panic s')
  ∧ (∃ s', run ops_C2 New = Panic s').
Proof.
  split_and!.
  - vm_compute. reflexivity.
  - eexists. vm_compute. reflexivity.
  - eexists. vm_compute. reflexivity.
Qed.

(** *** The scenarios of the specification *)

Example scenario_1 :
  run ops_scenario New = Ok tt state_scenario
  ∧ All state_scenario = Ok [1; 3; 4; 5; 7; 8; 9] state_scenario
  ∧ Min state_scenario = Ok (1, true) state_scenario
  ∧ Max state_scenario = Ok (9, true) state_scenario
  ∧ Len state_scenario = Ok 7 state_scenario.
Proof. split_and!; vm_compute; reflexivity. Qed.

Example scenario_2 :
  ∃ s, Remove 3 state_scenario = Ok tt s
       ∧ All s = Ok [1; 4; 5; 7; 8; 9] s
       ∧ Contains 3 s = Ok false s
       ∧ Len s = Ok 6 s.
Proof.
  exists (match Remove 3 state_scenario with Ok _ s => s | _ => New end).
  split_and!; vm_compute; reflexivity.
Qed.

Example scenario_3 :
  Min (New (T := Z)) = Ok (0, false) New
  ∧ Max (New (T := Z)) = Ok (0, false) New
  ∧ Contains 42 New = Ok false New.
Proof. split_and!; vm_compute; reflexivity. Qed.

Example scenario_4 :
  ∃ s, run [OpInsert 10; OpInsert 10] New = Ok tt s
       ∧ Len s = Ok 1 s ∧ All s = Ok [10] s.
Proof.
  exists (match Insert 10 New with Ok _ s => s | _ => New end).
  split_and!; vm_compute; reflexivity.
Qed.

(** *** The theorems at a concrete set *)

Lemma Insert_member_size_witness :
  run ops_scenario New = Ok tt state_scenario
  ∧ ∃ s' b n,
      Insert 6 state_scenario = Ok tt s'
      ∧ Contains 6 state_scenario = Ok b state_scenario
      ∧ Len state_scenario = Ok n state_scenario
      ∧ Contains 6 s' = Ok true s'
      ∧ (b = true → s' = state_scenario)
      ∧ (b = false → Len s' = Ok (n + 1) s').
Proof.
  split; [vm_compute; reflexivity|].
  apply (Insert_member_size ops_scenario state_scenario 6).
  vm_compute; reflexivity.
Defined.

Lemma Remove_member_size_witness :
  run ops_scenario New = Ok tt state_scenario
  ∧ ∃ s' b n,
      outcome (Remove 3 state_scenario) = Some s'
      ∧ Contains 3 state_scenario = Ok b state_scenario
      ∧ Len state_scenario = Ok n state_scenario
      ∧ Contains 3 s' = Ok false s'
      ∧ (b = false → Remove 3 state_scenario = Ok tt state_scenario)
      ∧ (b = true → Len s' = Ok (n - 1) s').
Proof.
  split; [vm_compute; reflexivity|].
  apply (Remove_member_size ops_scenario state_scenario 3).
  vm_compute; reflexivity.
Defined.

Lemma All_increasing_witness :
  run ops_scenario New = Ok tt state_scenario
  ∧ ∃ l, All state_scenario = Ok l state_scenario ∧ sorted l.
Proof.
  split; [vm_compute; reflexivity|].
  apply (All_increasing ops_scenario state_scenario).
  vm_compute; reflexivity.
Defined.

Lemma Contains_iff_All_witness :
  run ops_scenario New = Ok tt state_scenario
  ∧ ∃ l b, All state_scenario = Ok l state_scenario
           ∧ Contains 4 state_scenario = Ok b state_scenario
           ∧ (b = true ↔ 4 ∈ l).
Proof.
  split; [vm_compute; reflexivity|].
  apply (Contains_iff_All ops_scenario state_scenario 4).
  vm_compute; reflexivity.
Defined.

Lemma Insert_Remove_idempotent_witness :
  run ops_scenario New = Ok tt state_scenario
  ∧ ∃ s1 s2,
      Insert 6 state_scenario = Ok tt s1
      ∧ (Insert 6;; Insert 6) state_scenario = Ok tt s1
      ∧ outcome (Remove 6 state_scenario) = Some s2
      ∧ outcome ((Remove 6;; Remove 6) state_scenario) = Some s2
      ∧ Remove 6 s2 = Ok tt s2.
Proof.
  split; [vm_compute; reflexivity|].
  apply (Insert_Remove_idempotent ops_scenario state_scenario 6).
  vm_compute; reflexivity.
Defined.

Lemma Min_Max_spec_witness :
  run ops_scenario New = Ok tt state_scenario
  ∧ ∃ l, All state_scenario = Ok l state_scenario
         ∧ match l with
           | [] => Min state_scenario = Ok (zero, false) state_scenario
                   ∧ Max state_scenario = Ok (zero, false) state_scenario
           | _ :: _ =>
             ∃ lo hi,
               Min state_scenario = Ok (lo, true) state_scenario
               ∧ Max state_scenario = Ok (hi, true) state_scenario
               ∧ lo ∈ l ∧ hi ∈ l
               ∧ ∀ y, y ∈ l → (y = lo ∨ less lo y = true)
                              ∧ (y = hi ∨ less y hi = true)
           end.
Proof.
  split; [vm_compute; reflexivity|].
  apply (Min_Max_spec ops_scenario state_scenario).
  vm_compute; reflexivity.
Defined.

Lemma Len_counts_witness :
  run ops_scenario New = Ok tt state_scenario
  ∧ ∃ l, All state_scenario = Ok l state_scenario
         ∧ Len state_scenario = Ok (Z.of_nat (length l)) state_scenario
         ∧ l ≡ₚ model ops_scenario
         ∧ length l = length (model ops_scenario).
Proof.
  split; [vm_compute; reflexivity|].
  apply (Len_counts ops_scenario state_scenario).
  vm_compute; reflexivity.
Defined.

Lemma Contains_frame_witness :
  run ops_scenario New = Ok tt state_scenario
  ∧ 4 ≠ 3
  ∧ ∃ b s1 s2,
      Contains 4 state_scenario = Ok b state_scenario
      ∧ Insert 3 state_scenario = Ok tt s1 ∧ Contains 4 s1 = Ok b s1
      ∧ outcome (Remove 3 state_scenario) = Some s2 ∧ Contains 4 s2 = Ok b s2.
Proof.
  split; [vm_compute; reflexivity|]. split; [lia|].
  apply (Contains_frame ops_scenario state_scenario 3 4); [|lia].
  vm_compute; reflexivity.
Defined.

(** *** The further properties at a concrete set *)

Lemma scenario_tree_in : tree_in state_scenario tree_scenario.
Proof.
  split_and!; [vm_compute; by repeat split | reflexivity |].
  apply NoDup_ListNoDup. vm_compute. repeat constructor; simpl; intuition lia.
Qed.

Lemma scenario_inv : inv state_scenario tree_scenario.
Proof.
  split_and!; [apply scenario_tree_in | | exact I | reflexivity].
  unfold bst, sorted. simpl. repeat constructor.
Qed.

Lemma scenario_red_black : red_black tree_scenario.
Proof. split_and!; [exact I | reflexivity | by eexists]. Qed.

Lemma Insert_keeps_red_black_witness :
  inv state_scenario tree_scenario ∧ red_black tree_scenario
  ∧ ∃ s' t', Insert 6 state_scenario = Ok tt s' ∧ inv s' t' ∧ red_black t'.
Proof.
  split; [exact scenario_inv|]. split; [exact scenario_red_black|].
  exact (Insert_keeps_red_black 6 state_scenario tree_scenario
           scenario_inv scenario_red_black).
Defined.

Lemma Contains_logarithmic_witness :
  inv state_scenario tree_scenario ∧ red_black tree_scenario
  ∧ (height tree_scenario ≤ 2 * Nat.log2 (S (Z.to_nat (size state_scenario))))%nat
  ∧ ∃ b, Contains 7 state_scenario = Ok b state_scenario
         ∧ Contains_loop (S (2 * Nat.log2 (S (Z.to_nat (size state_scenario)))))
             7 (root state_scenario) state_scenario
           = Ok b state_scenario.
Proof.
  split; [exact scenario_inv|]. split; [exact scenario_red_black|].
  exact (Contains_logarithmic 7 state_scenario tree_scenario
           scenario_inv scenario_red_black).
Defined.

Lemma Remove_red_black_returns_witness :
  inv state_scenario tree_scenario ∧ red_black tree_scenario
  ∧ ∃ s', Remove 3 state_scenario = Ok tt s'.
Proof.
  split; [exact scenario_inv|]. split; [exact scenario_red_black|].
  exact (Remove_red_black_returns 3 state_scenario tree_scenario
           scenario_inv scenario_red_black).
Defined.

Lemma Remove_red_black_balance_witness :
  inv state_scenario tree_scenario ∧ red_black tree_scenario
  ∧ ∃ s' t', Remove 8 state_scenario = Ok tt s' ∧ inv s' t'
             ∧ no_red_red t' = true
             ∧ (is_Some (black_height t')
                ↔ unlinks_black_leaf 8 tree_scenario = false).
Proof.
  split; [exact scenario_inv|]. split; [exact scenario_red_black|].
  exact (Remove_red_black_balance 8 state_scenario tree_scenario
           scenario_inv scenario_red_black).
Defined.

Lemma All_canonical_witness :
  run ops_scenario New = Ok tt state_scenario
  ∧ run ops_sorted New = Ok tt state_sorted
  ∧ (∀ y, y ∈ model ops_scenario ↔ y ∈ model ops_sorted)
  ∧ ∃ l, All state_scenario = Ok l state_scenario
         ∧ All state_sorted = Ok l state_sorted.
Proof.
  assert (∀ y, y ∈ model ops_scenario ↔ y ∈ model ops_sorted) as Hm.
  { intros y. change (model ops_scenario) with [9; 7; 4; 1; 8; 3; 5].
    change (model ops_sorted) with [9; 8; 7; 5; 4; 3; 1].
    rewrite !elem_of_cons. tauto. }
  split; [vm_compute; reflexivity|]. split; [vm_compute; reflexivity|].
  split; [exact Hm|].
  apply (All_canonical ops_scenario ops_sorted state_scenario state_sorted);
    [vm_compute; reflexivity | vm_compute; reflexivity | exact Hm].
Defined.

Lemma Insert_Remove_round_trip_witness :
  run ops_scenario New = Ok tt state_scenario
  ∧ ∃ b l n s1 s2,
      Contains 6 state_scenario = Ok b state_scenario
      ∧ All state_scenario = Ok l state_scenario
      ∧ Len state_scenario = Ok n state_scenario
      ∧ (if b then outcome (Remove 6 state_scenario) = Some s1
                   ∧ Insert 6 s1 = Ok tt s2
         else Insert 6 state_scenario = Ok tt s1
              ∧ outcome (Remove 6 s1) = Some s2)
      ∧ All s2 = Ok l s2 ∧ Len s2 = Ok n s2.
Proof.
  split; [vm_compute; reflexivity|].
  apply (Insert_Remove_round_trip ops_scenario state_scenario 6).
  vm_compute; reflexivity.
Defined.

Lemma All_with_prefix_witness :
  run ops_scenario New = Ok tt state_scenario
  ∧ ∃ l, All state_scenario = Ok l state_scenario
         ∧ All_with (λ v, v <? 5) state_scenario
           = Ok (yielded (λ v, v <? 5) l) state_scenario.
Proof.
  split; [vm_compute; reflexivity|].
  apply (All_with_prefix ops_scenario state_scenario (λ v, v <? 5)).
  vm_compute; reflexivity.
Defined.

Lemma leftRotate_rightRotate_witness :
  tree_in state_scenario (plug [] tree_scenario)
  ∧ ∃ s1, leftRotate (Some 0%nat) state_scenario = Ok tt s1
          ∧ tree_in s1
              (plug []
                 (Node 2%nat black 8
                    (Node 0%nat black 5
                       (Node 1%nat black 3 (Node 3%nat red 1 Leaf Leaf)
                          (Node 4%nat red 4 Leaf Leaf))
                       (Node 5%nat red 7 Leaf Leaf))
                    (Node 6%nat red 9 Leaf Leaf)))
          ∧ rightRotate (Some 2%nat) s1 = Ok tt state_scenario.
Proof.
  split; [exact scenario_tree_in|].
  exact (leftRotate_rightRotate state_scenario [] 0%nat black 5
           (Node 1%nat black 3 (Node 3%nat red 1 Leaf Leaf) (Node 4%nat red 4 Leaf Leaf))
           2%nat black 8 (Node 5%nat red 7 Leaf Leaf) (Node 6%nat red 9 Leaf Leaf)
           scenario_tree_in).
Defined.

Lemma rightRotate_leftRotate_witness :
  tree_in state_scenario (plug [] tree_scenario)
  ∧ ∃ s1, rightRotate (Some 0%nat) state_scenario = Ok tt s1
          ∧ tree_in s1
              (plug []
                 (Node 1%nat black 3 (Node 3%nat red 1 Leaf Leaf)
                    (Node 0%nat black 5 (Node 4%nat red 4 Leaf Leaf)
                       (Node 2%nat black 8 (Node 5%nat red 7 Leaf Leaf)
                          (Node 6%nat red 9 Leaf Leaf)))))
          ∧ leftRotate (Some 1%nat) s1 = Ok tt state_scenario.
Proof.
  split; [exact scenario_tree_in|].
  exact (rightRotate_leftRotate state_scenario [] 0%nat black 5
           (Node 3%nat red 1 Leaf Leaf) 1%nat black 3 (Node 4%nat red 4 Leaf Leaf)
           (Node 2%nat black 8 (Node 5%nat red 7 Leaf Leaf) (Node 6%nat red 9 Leaf Leaf))
           scenario_tree_in).
Defined.


Lemma insertFixup_rearranges_witness :
  tree_in state_scenario (plug ctx_scenario (Node 3%nat red 1 Leaf Leaf))
  ∧ ctx_root_black ctx_scenario
  ∧ ∃ s' t', insertFixup (Some 3%nat) state_scenario = Ok tt s'
             ∧ tree_in s' t' ∧ root_black t'
             ∧ addrs t' = addrs (plug ctx_scenario (Node 3%nat red 1 Leaf Leaf))
             ∧ elements t' = elements (plug ctx_scenario (Node 3%nat red 1 Leaf Leaf))
             ∧ size s' = size state_scenario.
Proof.
  split; [exact scenario_tree_in|]. split; [reflexivity|].
  exact (insertFixup_rearranges state_scenario ctx_scenario 3%nat red 1 Leaf Leaf
           scenario_tree_in eq_refl).
Defined.

Lemma deleteFixup_rearranges_witness :
  tree_in state_scenario
    (plug (drop 1 ctx_scenario)
       (Node 1%nat black 3 (Node 3%nat red 1 Leaf Leaf) (Node 4%nat red 4 Leaf Leaf)))
  ∧ ctx_root_black (drop 1 ctx_scenario)
  ∧ ∃ s' t', outcome (deleteFixup (Some 1%nat) state_scenario) = Some s'
             ∧ tree_in s' t' ∧ root_black t'
             ∧ elements t'
               = elements
                   (plug (drop 1 ctx_scenario)
                      (Node 1%nat black 3 (Node 3%nat red 1 Leaf Leaf)
                         (Node 4%nat red 4 Leaf Leaf)))
             ∧ size s' = size state_scenario.
Proof.
  split; [exact scenario_tree_in|]. split; [reflexivity|].
  exact (deleteFixup_rearranges state_scenario (drop 1 ctx_scenario) 1%nat black 3
           (Node 3%nat red 1 Leaf Leaf) (Node 4%nat red 4 Leaf Leaf)
           scenario_tree_in eq_refl).
Defined.
